(** * Agent Orchestra frontend: request client, socket manager, agent store

    A shallow embedding of three TypeScript modules of the frontend and the
    properties their specification states about them:

    - [Api]   : [ApiClient] of [lib/api.ts] (error classification, backoff
                delay, retry loop of [request]);
    - [Ws]    : [WebSocketManager], the socket.io client of the frontend
                (outbound queue, connect / disconnect life cycle);
    - [Store] : the zustand store of [store/agentStore.ts];
    - [ApiCalls], [WsListeners], [WsHandlers], [Auth] : the callers of
                [request], the listener registry and the push-event handlers
                of the socket manager, and the authentication manager.

    Conventions of the embedding.
    - A JavaScript [number] that holds an integer (attempt counters, delays in
      milliseconds, HTTP statuses, [Date.now()]) is a [Z].
    - An optional field or argument ([x?: T], possibly [undefined]) is an
      [option T].
    - A value of type [any] that the code only copies is an element of a type
      variable.
    - Effects are explicit: the request loop returns the trace of the calls it
      made to the transport and to [sleep]; the socket manager and the store
      are state-passing functions; the clock is an input of the operations
      that read it. *)

From Stdlib Require Import ZArith Lia.
From stdpp Require Import base tactics option list strings pretty gmap.

Local Open Scope Z_scope.

(** JavaScript truthiness of a string: only the empty string is falsy. *)
Definition truthy_string (s : string) : bool :=
  negb (bool_decide (s = ""%string)).

(** [a || b] on optional strings. *)
Definition or_string (a b : option string) : option string :=
  match a with
  | Some s => if truthy_string s then Some s else b
  | None => b
  end.

(* ====================================================================== *)
(** * Configuration ([lib/config.ts]) *)
(* ====================================================================== *)

(** The fields of the [config] object that the client and the socket
    manager read. *)
Record Config := {
  enableWebSocket : bool;
  requestTimeout : Z;
  retryAttempts : Z;
  retryDelay : Z;
}.

(** The [config] object, given the value of the environment variable
    [NEXT_PUBLIC_ENABLE_WEBSOCKET]. *)
Definition config (NEXT_PUBLIC_ENABLE_WEBSOCKET : option string) : Config :=
  {| enableWebSocket :=
       bool_decide (NEXT_PUBLIC_ENABLE_WEBSOCKET = Some "true"%string);
     requestTimeout := 300000;
     retryAttempts := 3;
     retryDelay := 1000 |}.

(* ====================================================================== *)
(** * The request client ([lib/api.ts]) *)
(* ====================================================================== *)

Module Api.

(** An element of [retryableErrors : (string | number)[]]. *)
Inductive ErrorKey :=
  | KNum (n : Z)
  | KStr (s : string).

#[global] Instance ErrorKey_eq_dec : EqDecision ErrorKey.
Proof. solve_decision. Defined.

Record RetryConfig := {
  maxAttempts : Z;
  baseDelay : Z;
  maxDelay : Z;
  backoffFactor : Z;
  retryableErrors : list ErrorKey;
}.

(** [Partial<RetryConfig>]: every field may be absent. *)
Record PartialRetryConfig := {
  maxAttempts_opt : option Z;
  baseDelay_opt : option Z;
  maxDelay_opt : option Z;
  backoffFactor_opt : option Z;
  retryableErrors_opt : option (list ErrorKey);
}.

Definition noOverride : PartialRetryConfig :=
  {| maxAttempts_opt := None; baseDelay_opt := None; maxDelay_opt := None;
     backoffFactor_opt := None; retryableErrors_opt := None |}.

(** [{ ...base, ...custom }]; an absent [customRetryConfig] spreads nothing. *)
Definition spread (base : RetryConfig) (custom : PartialRetryConfig) : RetryConfig :=
  {| maxAttempts := default (maxAttempts base) (maxAttempts_opt custom);
     baseDelay := default (baseDelay base) (baseDelay_opt custom);
     maxDelay := default (maxDelay base) (maxDelay_opt custom);
     backoffFactor := default (backoffFactor base) (backoffFactor_opt custom);
     retryableErrors := default (retryableErrors base) (retryableErrors_opt custom) |}.

(** The constructor of [ApiClient]: the retry configuration of the instance. *)
Definition constructor (config : Config) : RetryConfig :=
  {| maxAttempts := retryAttempts config;
     baseDelay := retryDelay config;
     maxDelay := 30000;
     backoffFactor := 2;
     retryableErrors :=
       [KNum 408; KNum 429; KNum 500; KNum 502; KNum 503; KNum 504;
        KStr "ECONNABORTED"; KStr "NETWORK_ERROR"] |}.

(** The body of an error response, as far as [handleError] looks into it. *)
Record ResponseData := {
  data_message : option string;
  data_detail : option string;
  data_code : option string;
}.

(** What axios rejects with, by the three cases [handleError] tells apart. *)
Inductive AxiosError :=
  | ErrResponse (status : Z) (data : option ResponseData)
  | ErrNoResponse
  | ErrSetup (message : option string) (code : option string).

Record ApiError := {
  message : string;
  code : option string;
  status : option Z;
  details : option ResponseData;
  retryable : bool;
}.

(** [!error] for [error : string | number | undefined]. *)
Definition falsy (error : option ErrorKey) : bool :=
  match error with
  | None => true
  | Some (KNum n) => bool_decide (n = 0)
  | Some (KStr s) => negb (truthy_string s)
  end.

Definition isRetryableError (self : RetryConfig) (error : option ErrorKey) : bool :=
  if falsy error then false
  else match error with
       | Some k => bool_decide (k ∈ retryableErrors self)
       | None => false
       end.

Definition handleError (self : RetryConfig) (error : AxiosError) : ApiError :=
  match error with
  | ErrResponse status data =>
      {| message :=
           default ("HTTP " +:+ pretty status +:+ " Error")
             (or_string
                (or_string (data ≫= data_message) (data ≫= data_detail)) None);
         code := data ≫= data_code;
         status := Some status;
         details := data;
         retryable := isRetryableError self (Some (KNum status)) |}
  | ErrNoResponse =>
      {| message := "Network error - no response received";
         code := Some "NETWORK_ERROR"%string;
         status := None;
         details := None;
         retryable := true |}
  | ErrSetup msg code =>
      {| message := default "Unknown error occurred"%string (or_string msg None);
         code := code;
         status := None;
         details := None;
         retryable := isRetryableError self (KStr <$> code) |}
  end.

(** [Math.pow] on integer arguments with a non-negative exponent, the only
    ones [calculateDelay] is called with from [request]. *)
Definition Math_pow (b e : Z) : Z := b ^ e.

Definition calculateDelay (self : RetryConfig) (attempt : Z) : Z :=
  let delay := baseDelay self * Math_pow (backoffFactor self) (attempt - 1) in
  Z.min delay (maxDelay self).

(** ** The retry loop *)

Section Request.
(** The decoded response type [T]. *)
Context {T : Type}.

(** The outcome of one call of the axios instance before the interceptors. *)
Inductive AxiosResult :=
  | Resolved (response : T)
  | Rejected (error : AxiosError).

(** The backend as the loop sees it: the outcome of the k-th call. *)
Definition Server := Z → AxiosResult.

(** [this.client.request(config)] with the response interceptor, which
    rejects with [handleError error]. *)
Definition client_request (self : RetryConfig) (r : AxiosResult) : T + ApiError :=
  match r with
  | Resolved response => inl response
  | Rejected error => inr (handleError self error)
  end.

(** The observable effects of [request], in program order. *)
Inductive Event :=
  | EvRequest (attempt : Z)
  | EvSleep (ms : Z).

Inductive Outcome :=
  | Returned (response : T)
  | Thrown (error : ApiError).

Record Run := { outcome : Outcome; trace : list Event }.

Definition unknownError : ApiError :=
  {| message := "Unknown error"; code := None; status := None;
     details := None; retryable := false |}.

(** The [for] loop of [request]; [fuel] bounds the number of iterations and
    [None] means the bound was too small. *)
Fixpoint request_loop (self retryConfig : RetryConfig) (server : Server)
    (fuel : nat) (attempt : Z) (lastError : ApiError) (tr : list Event)
    : option Run :=
  match fuel with
  | O => None
  | S fuel =>
      if bool_decide (attempt ≤ maxAttempts retryConfig) then
        let tr := tr ++ [EvRequest attempt] in
        match client_request self (server attempt) with
        | inl response => Some {| outcome := Returned response; trace := tr |}
        | inr lastError =>
            if bool_decide (attempt = maxAttempts retryConfig)
               || negb (retryable lastError)
            then Some {| outcome := Thrown lastError; trace := tr |}
            else
              let delay := calculateDelay self attempt in
              request_loop self retryConfig server fuel (attempt + 1) lastError
                (tr ++ [EvSleep delay])
        end
      else Some {| outcome := Thrown lastError; trace := tr |}
  end.

Definition request (self : RetryConfig) (customRetryConfig : PartialRetryConfig)
    (server : Server) : option Run :=
  let retryConfig := spread self customRetryConfig in
  request_loop self retryConfig server
    (S (Z.to_nat (maxAttempts retryConfig))) 1 unknownError [].

(** The effects of [j] consecutive failed attempts that are retried, the
    first of them being attempt number [a]. *)
Fixpoint retried_attempts (self : RetryConfig) (a : Z) (j : nat) : list Event :=
  match j with
  | O => []
  | S j =>
      EvRequest a :: EvSleep (calculateDelay self a) :: retried_attempts self (a + 1) j
  end.

(** The trace of a run that performs [k] attempts: the attempts, with the
    backoff sleep between two consecutive ones. *)
Definition retry_trace (self : RetryConfig) (k : nat) : list Event :=
  match k with
  | O => []
  | S j => retried_attempts self 1 j ++ [EvRequest (1 + Z.of_nat j)]
  end.

Definition requests_of (tr : list Event) : list Z :=
  omap (λ e, match e with EvRequest attempt => Some attempt | _ => None end) tr.

Definition attempts_of (tr : list Event) : nat := length (requests_of tr).

Definition sleeps_of (tr : list Event) : list Z :=
  omap (λ e, match e with EvSleep ms => Some ms | _ => None end) tr.
End Request.

Arguments AxiosResult : clear implicits.
Arguments Server : clear implicits.
Arguments Outcome : clear implicits.
Arguments Run : clear implicits.

(** The formula of the specification: [min (base * factor^(n-1)) maxDelay]. *)
Definition delay_formula (base factor cap n : Z) : Z :=
  Z.min (base * factor ^ (n - 1)) cap.

End Api.

(* ====================================================================== *)
(** * The socket manager ([WebSocketManager]) *)
(* ====================================================================== *)

Module Ws.

Definition maxReconnectAttempts : Z := 5.
Definition reconnectDelay : Z := 1000.

Section Manager.
(** The payload of a message ([data: any]). *)
Context {Data : Type}.

Record WebSocketMessage := {
  type : string;
  data : Data;
  timestamp : string;
}.

(** The socket.io socket held in [this.socket], as far as the manager looks
    at it: its [connected] flag and whether the two listeners that
    [connect()] registers with [once] are still registered. *)
Record Socket := {
  connected : bool;
  onceConnect : bool;
  onceConnectError : bool;
}.

(** The fields of [WebSocketManager], and the calls of [socket.emit] made so
    far, oldest first. *)
Record WebSocketManager := {
  socket : option Socket;
  reconnectAttempts : Z;
  isConnecting : bool;
  messageQueue : list WebSocketMessage;
  emitted : list (string * WebSocketMessage);
}.

Definition new_manager : WebSocketManager :=
  {| socket := None; reconnectAttempts := 0; isConnecting := false;
     messageQueue := []; emitted := [] |}.

Definition with_socket (sk : option Socket) (m : WebSocketManager) : WebSocketManager :=
  {| socket := sk; reconnectAttempts := reconnectAttempts m;
     isConnecting := isConnecting m; messageQueue := messageQueue m;
     emitted := emitted m |}.

Definition with_reconnectAttempts (n : Z) (m : WebSocketManager) : WebSocketManager :=
  {| socket := socket m; reconnectAttempts := n;
     isConnecting := isConnecting m; messageQueue := messageQueue m;
     emitted := emitted m |}.

Definition with_isConnecting (b : bool) (m : WebSocketManager) : WebSocketManager :=
  {| socket := socket m; reconnectAttempts := reconnectAttempts m;
     isConnecting := b; messageQueue := messageQueue m;
     emitted := emitted m |}.

Definition with_messageQueue (q : list WebSocketMessage) (m : WebSocketManager)
    : WebSocketManager :=
  {| socket := socket m; reconnectAttempts := reconnectAttempts m;
     isConnecting := isConnecting m; messageQueue := q;
     emitted := emitted m |}.

(** [this.socket?.connected], read as a condition. *)
Definition isConnected (m : WebSocketManager) : bool :=
  match socket m with
  | Some sk => connected sk
  | None => false
  end.

(** [this.socket.emit(event, message)]. *)
Definition socket_emit (event : string) (message : WebSocketMessage)
    (m : WebSocketManager) : WebSocketManager :=
  {| socket := socket m; reconnectAttempts := reconnectAttempts m;
     isConnecting := isConnecting m; messageQueue := messageQueue m;
     emitted := emitted m ++ [(event, message)] |}.

(** The [while] loop of [processMessageQueue]: every iteration shifts one
    message, so the length of the queue bounds the iterations. *)
Fixpoint processMessageQueue_loop (fuel : nat) (m : WebSocketManager)
    : WebSocketManager :=
  match fuel with
  | O => m
  | S fuel =>
      match messageQueue m with
      | message :: rest =>
          if isConnected m then
            processMessageQueue_loop fuel
              (socket_emit "message" message (with_messageQueue rest m))
          else m
      | [] => m
      end
  end.

Definition processMessageQueue (m : WebSocketManager) : WebSocketManager :=
  processMessageQueue_loop (length (messageQueue m)) m.

(** What [connect()] has returned when it gives control back: a settled
    promise, or one that the first connect / connect_error event settles. *)
Inductive ConnectResult :=
  | Settled (ok : bool)
  | Pending.

(** [io(config.wsUrl, ...)] followed by the registrations of [connect()]. *)
Definition fresh_socket : Socket :=
  {| connected := false; onceConnect := true; onceConnectError := true |}.

(** [connect()] up to the point where it returns its promise; [io] is taken
    not to throw. *)
Definition connect (config : Config) (m : WebSocketManager)
    : WebSocketManager * ConnectResult :=
  if isConnected m || isConnecting m then (m, Settled true)
  else if negb (enableWebSocket config) then (m, Settled false)
  else (with_socket (Some fresh_socket) (with_isConnecting true m), Pending).

Definition send (config : Config) (event : string) (data : Data) (now : string)
    (m : WebSocketManager) : WebSocketManager :=
  let message := {| type := event; data := data; timestamp := now |} in
  if isConnected m then socket_emit "message" message m
  else
    let m := with_messageQueue (messageQueue m ++ [message]) m in
    if negb (isConnecting m) then fst (connect config m) else m.

(** [disconnect()]. The [disconnect] listener that [this.socket.disconnect()]
    may run sees a reason other than ['io server disconnect'] and does
    nothing. *)
Definition disconnect (m : WebSocketManager) : WebSocketManager :=
  with_isConnecting false (with_socket None m).

(** ** Listeners *)

(** [socket.on('connect', ...)] of [setupSocketEventHandlers]. *)
Definition on_connect (m : WebSocketManager) : WebSocketManager :=
  with_reconnectAttempts 0 m.

(** [socket.once('connect', ...)] of [connect()]. *)
Definition once_connect (m : WebSocketManager) : WebSocketManager :=
  processMessageQueue (with_reconnectAttempts 0 (with_isConnecting false m)).

(** [socket.once('connect_error', ...)] of [connect()]. *)
Definition once_connect_error (m : WebSocketManager) : WebSocketManager :=
  with_isConnecting false m.

(** [socket.on('disconnect', ...)]. *)
Definition on_disconnect (config : Config) (reason : string) (m : WebSocketManager)
    : WebSocketManager :=
  if bool_decide (reason = "io server disconnect"%string)
  then fst (connect config m) else m.

(** [socket.on('reconnect_error', ...)]. *)
Definition on_reconnect_error (m : WebSocketManager) : WebSocketManager :=
  with_reconnectAttempts (reconnectAttempts m + 1) m.

(** ** The manager as a transition system

    The calls of the public methods, the events that the socket held in
    [this.socket] raises ([Socket...]), and the events of a socket that
    [connect()] has replaced in [this.socket] without closing it
    ([Stale...]): its listeners still run on the manager, with [once]
    telling whether the [once] listener is still registered. The socket
    library sets [connected] before it runs the listeners, in the order of
    their registration, and drops a [once] listener before running it. *)
Inductive Trigger :=
  | CallConnect
  | CallSend (event : string) (data : Data) (now : string)
  | CallDisconnect
  | SocketConnect
  | SocketConnectError
  | SocketDisconnect (reason : string)
  | SocketReconnectError
  | StaleConnect (once : bool)
  | StaleConnectError (once : bool)
  | StaleDisconnect (reason : string)
  | StaleReconnectError.

(** A socket raises connect, connect_error and reconnect_error only while it
    is not connected, and disconnect only while it is. The events of
    replaced sockets are taken to be possible at any time. *)
Definition enabled (m : WebSocketManager) (a : Trigger) : bool :=
  match a with
  | SocketConnect | SocketConnectError | SocketReconnectError =>
      match socket m with
      | Some sk => negb (connected sk)
      | None => false
      end
  | SocketDisconnect _ => isConnected m
  | _ => true
  end.

Definition fire (config : Config) (a : Trigger) (m : WebSocketManager)
    : WebSocketManager :=
  match a with
  | CallConnect => fst (connect config m)
  | CallSend event data now => send config event data now m
  | CallDisconnect => disconnect m
  | SocketConnect =>
      match socket m with
      | Some sk =>
          let sk' := {| connected := true; onceConnect := false;
                        onceConnectError := onceConnectError sk |} in
          let m := on_connect (with_socket (Some sk') m) in
          if onceConnect sk then once_connect m else m
      | None => m
      end
  | SocketConnectError =>
      match socket m with
      | Some sk =>
          let sk' := {| connected := connected sk; onceConnect := onceConnect sk;
                        onceConnectError := false |} in
          let m := with_socket (Some sk') m in
          if onceConnectError sk then once_connect_error m else m
      | None => m
      end
  | SocketDisconnect reason =>
      match socket m with
      | Some sk =>
          let sk' := {| connected := false; onceConnect := onceConnect sk;
                        onceConnectError := onceConnectError sk |} in
          on_disconnect config reason (with_socket (Some sk') m)
      | None => m
      end
  | SocketReconnectError =>
      match socket m with
      | Some sk => on_reconnect_error m
      | None => m
      end
  | StaleConnect once =>
      let m := on_connect m in
      if once then once_connect m else m
  | StaleConnectError once => if once then once_connect_error m else m
  | StaleDisconnect reason => on_disconnect config reason m
  | StaleReconnectError => on_reconnect_error m
  end.

(** An event that the socket cannot raise in the current state does not
    happen. *)
Definition handle (config : Config) (m : WebSocketManager) (a : Trigger)
    : WebSocketManager :=
  if enabled m a then fire config a m else m.

Definition handle_all (config : Config) (m : WebSocketManager) (acts : list Trigger)
    : WebSocketManager :=
  foldl (handle config) m acts.

Inductive reachable_manager (config : Config) : WebSocketManager → Prop :=
  | reachable_new : reachable_manager config new_manager
  | reachable_handle m a :
      reachable_manager config m → reachable_manager config (handle config m a).

(** The messages handed to [send] by a sequence of actions, in call order. *)
Definition sends_of (acts : list Trigger) : list WebSocketMessage :=
  omap (λ a, match a with
             | CallSend event data now =>
                 Some {| type := event; data := data; timestamp := now |}
             | _ => None
             end) acts.

(** ** Vocabulary of the properties *)

(** How a message of the queue goes out: as a [message] event. *)
Definition wire (message : WebSocketMessage) : string * WebSocketMessage :=
  ("message"%string, message).

(** A socket that has not connected yet and still carries the [once]
    listener that flushes the queue. *)
Definition awaiting_connect (sk : Socket) : Prop :=
  connected sk = false ∧ onceConnect sk = true.

(** What holds of the fields in every reachable state: while a connection
    attempt is in flight, and while messages wait in the queue, the socket
    held is awaiting its connect event; a disabled configuration never gets
    a socket. *)
Definition inv (config : Config) (m : WebSocketManager) : Prop :=
  (isConnecting m = true → ∃ sk, socket m = Some sk ∧ awaiting_connect sk)
  ∧ (messageQueue m ≠ [] → ∀ sk, socket m = Some sk → awaiting_connect sk)
  ∧ (enableWebSocket config = false → socket m = None).

(** The arguments of one call of [send], with the clock reading. *)
Record SendCall := {
  call_event : string;
  call_data : Data;
  call_now : string;
}.

Definition message_of (c : SendCall) : WebSocketMessage :=
  {| type := call_event c; data := call_data c; timestamp := call_now c |}.

Definition sendCall (config : Config) (m : WebSocketManager) (c : SendCall)
    : WebSocketManager :=
  send config (call_event c) (call_data c) (call_now c) m.

End Manager.

Arguments WebSocketMessage : clear implicits.
Arguments WebSocketManager : clear implicits.
Arguments Trigger : clear implicits.
Arguments SendCall : clear implicits.

(** A configuration and calls used in examples. *)
Definition on : Config := config (Some "true"%string).

Definition sampleCalls : list (SendCall nat) :=
  [ {| call_event := "ping"; call_data := 1%nat; call_now := "t1" |};
    {| call_event := "task"; call_data := 2%nat; call_now := "t2" |};
    {| call_event := "ping"; call_data := 3%nat; call_now := "t3" |} ].

End Ws.

(* ====================================================================== *)
(** * The agent store ([store/agentStore.ts]) *)
(* ====================================================================== *)

Module Agent.
Inductive AgentStatus := Idle | Running | Completed | Error.

Record Agent := {
  id : string;
  name : string;
  status : AgentStatus;
  currentTask : option string;
  lastCompleted : option string;
  error : option string;
  progress : option Z;
}.
End Agent.

Module Workflow.
Inductive WorkflowStatus := Pending | Running | Completed | Error.

Record Workflow {Any : Type} := {
  id : string;
  type : string;
  status : WorkflowStatus;
  startTime : option string;
  endTime : option string;
  steps : list string;
  currentStep : option string;
  results : option Any;
  error : option string;
}.
Arguments Workflow : clear implicits.
End Workflow.

Module ApprovalRequest.
Inductive RiskLevel := Low | Medium | High | Critical.
Inductive ApprovalStatus := Pending | Approved | Rejected.

(** [Omit<ApprovalRequest, 'id' | 'timestamp' | 'status'>]. *)
Record input := {
  in_actionType : string;
  in_description : string;
  in_riskLevel : RiskLevel;
  in_estimatedCost : option Z;
  in_estimatedDuration : option Z;
  in_agentInvolved : option string;
}.

Record ApprovalRequest := {
  id : string;
  actionType : string;
  description : string;
  riskLevel : RiskLevel;
  estimatedCost : option Z;
  estimatedDuration : option Z;
  agentInvolved : option string;
  status : ApprovalStatus;
  timestamp : string;
}.
End ApprovalRequest.

Module Activity.
Record ActivityLogEntry {Any : Type} := {
  id : string;
  agentId : string;
  action : string;
  timestamp : string;
  details : option Any;
}.
Arguments ActivityLogEntry : clear implicits.
End Activity.

Module Store.

#[global] Instance agent_status_eq_dec : EqDecision Agent.AgentStatus.
Proof. solve_decision. Defined.
#[global] Instance workflow_status_eq_dec : EqDecision Workflow.WorkflowStatus.
Proof. solve_decision. Defined.
#[global] Instance approval_status_eq_dec : EqDecision ApprovalRequest.ApprovalStatus.
Proof. solve_decision. Defined.

Section State.
(** The type of the values that the store only passes on ([any]): workflow
    results and activity details. *)
Context {Any : Type}.

Record AgentState := {
  agents : list Agent.Agent;
  workflows : list (Workflow.Workflow Any);
  activeWorkflow : option (Workflow.Workflow Any);
  pendingApprovals : list ApprovalRequest.ApprovalRequest;
  isExecuting : bool;
  currentTask : option string;
  activityLog : list (Activity.ActivityLogEntry Any);
}.

Definition initialAgent (id name : string) : Agent.Agent :=
  {| Agent.id := id; Agent.name := name; Agent.status := Agent.Idle;
     Agent.currentTask := None; Agent.lastCompleted := None;
     Agent.error := None; Agent.progress := None |}.

Definition initialAgents : list Agent.Agent :=
  [ initialAgent "repository_analyzer" "Repository Analyzer";
    initialAgent "requirements_extractor" "Requirements Extractor";
    initialAgent "architecture_designer" "Architecture Designer";
    initialAgent "implementation_planner" "Implementation Planner";
    initialAgent "validator" "Validator" ].

Definition initial : AgentState :=
  {| agents := initialAgents; workflows := []; activeWorkflow := None;
     pendingApprovals := []; isExecuting := false; currentTask := None;
     activityLog := [] |}.

(** ** Agent actions *)

Definition updateAgentStatus (agentId : string) (status : Agent.AgentStatus)
    (task error : option string) (state : AgentState) : AgentState :=
  {| agents :=
       (λ agent,
          if bool_decide (Agent.id agent = agentId) then
            {| Agent.id := Agent.id agent;
               Agent.name := Agent.name agent;
               Agent.status := status;
               Agent.currentTask := task;
               Agent.lastCompleted := Agent.lastCompleted agent;
               Agent.error := error;
               Agent.progress :=
                 Some (if bool_decide (status = Agent.Completed) then 100 else 0) |}
          else agent) <$> agents state;
     workflows := workflows state;
     activeWorkflow := activeWorkflow state;
     pendingApprovals := pendingApprovals state;
     isExecuting := isExecuting state;
     currentTask := currentTask state;
     activityLog := activityLog state |}.

Definition updateAgentProgress (agentId : string) (progress : Z)
    (state : AgentState) : AgentState :=
  {| agents :=
       (λ agent,
          if bool_decide (Agent.id agent = agentId) then
            {| Agent.id := Agent.id agent;
               Agent.name := Agent.name agent;
               Agent.status := Agent.status agent;
               Agent.currentTask := Agent.currentTask agent;
               Agent.lastCompleted := Agent.lastCompleted agent;
               Agent.error := Agent.error agent;
               Agent.progress := Some progress |}
          else agent) <$> agents state;
     workflows := workflows state;
     activeWorkflow := activeWorkflow state;
     pendingApprovals := pendingApprovals state;
     isExecuting := isExecuting state;
     currentTask := currentTask state;
     activityLog := activityLog state |}.

Definition resetAgents (state : AgentState) : AgentState :=
  {| agents := initialAgents;
     workflows := workflows state;
     activeWorkflow := activeWorkflow state;
     pendingApprovals := pendingApprovals state;
     isExecuting := isExecuting state;
     currentTask := currentTask state;
     activityLog := activityLog state |}.

(** ** Workflow actions

    [nowMs] is the value of [Date.now()] and [nowIso] that of
    [new Date().toISOString()] at the call. *)

Definition startWorkflow (type : string) (steps : list string)
    (nowMs : Z) (nowIso : string) (state : AgentState) : AgentState :=
  let workflow :=
    {| Workflow.id := "workflow_" +:+ pretty nowMs;
       Workflow.type := type;
       Workflow.status := Workflow.Running;
       Workflow.startTime := Some nowIso;
       Workflow.endTime := None;
       Workflow.steps := steps;
       Workflow.currentStep := head steps;
       Workflow.results := None;
       Workflow.error := None |} in
  {| agents := agents state;
     workflows := workflows state ++ [workflow];
     activeWorkflow := Some workflow;
     pendingApprovals := pendingApprovals state;
     isExecuting := true;
     currentTask := Some ("Running " +:+ type +:+ " workflow");
     activityLog := activityLog state |}.

Definition updateWorkflowStatus (workflowId : string) (status : Workflow.WorkflowStatus)
    (currentStep error : option string) (nowIso : string)
    (state : AgentState) : AgentState :=
  {| agents := agents state;
     workflows :=
       (λ w,
          if bool_decide (Workflow.id w = workflowId) then
            {| Workflow.id := Workflow.id w;
               Workflow.type := Workflow.type w;
               Workflow.status := status;
               Workflow.startTime := Workflow.startTime w;
               Workflow.endTime :=
                 if bool_decide (status = Workflow.Completed)
                    || bool_decide (status = Workflow.Error)
                 then Some nowIso else None;
               Workflow.steps := Workflow.steps w;
               Workflow.currentStep := currentStep;
               Workflow.results := Workflow.results w;
               Workflow.error := error |}
          else w) <$> workflows state;
     activeWorkflow :=
       match activeWorkflow state with
       | Some active =>
           if bool_decide (Workflow.id active = workflowId) then
             Some {| Workflow.id := Workflow.id active;
                     Workflow.type := Workflow.type active;
                     Workflow.status := status;
                     Workflow.startTime := Workflow.startTime active;
                     Workflow.endTime := Workflow.endTime active;
                     Workflow.steps := Workflow.steps active;
                     Workflow.currentStep := currentStep;
                     Workflow.results := Workflow.results active;
                     Workflow.error := error |}
           else Some active
       | None => None
       end;
     pendingApprovals := pendingApprovals state;
     isExecuting := isExecuting state;
     currentTask := currentTask state;
     activityLog := activityLog state |}.

Definition completeWorkflow (workflowId : string) (results : Any)
    (nowIso : string) (state : AgentState) : AgentState :=
  {| agents := agents state;
     workflows :=
       (λ w,
          if bool_decide (Workflow.id w = workflowId) then
            {| Workflow.id := Workflow.id w;
               Workflow.type := Workflow.type w;
               Workflow.status := Workflow.Completed;
               Workflow.startTime := Workflow.startTime w;
               Workflow.endTime := Some nowIso;
               Workflow.steps := Workflow.steps w;
               Workflow.currentStep := Workflow.currentStep w;
               Workflow.results := Some results;
               Workflow.error := Workflow.error w |}
          else w) <$> workflows state;
     activeWorkflow :=
       match activeWorkflow state with
       | Some active =>
           if bool_decide (Workflow.id active = workflowId) then
             Some {| Workflow.id := Workflow.id active;
                     Workflow.type := Workflow.type active;
                     Workflow.status := Workflow.Completed;
                     Workflow.startTime := Workflow.startTime active;
                     Workflow.endTime := Workflow.endTime active;
                     Workflow.steps := Workflow.steps active;
                     Workflow.currentStep := Workflow.currentStep active;
                     Workflow.results := Some results;
                     Workflow.error := Workflow.error active |}
           else Some active
       | None => None
       end;
     pendingApprovals := pendingApprovals state;
     isExecuting := false;
     currentTask := None;
     activityLog := activityLog state |}.

Definition clearWorkflows (state : AgentState) : AgentState :=
  {| agents := agents state;
     workflows := [];
     activeWorkflow := None;
     pendingApprovals := pendingApprovals state;
     isExecuting := isExecuting state;
     currentTask := currentTask state;
     activityLog := activityLog state |}.

(** ** Approval actions *)

Definition with_pendingApprovals (l : list ApprovalRequest.ApprovalRequest) (state : AgentState)
    : AgentState :=
  {| agents := agents state;
     workflows := workflows state;
     activeWorkflow := activeWorkflow state;
     pendingApprovals := l;
     isExecuting := isExecuting state;
     currentTask := currentTask state;
     activityLog := activityLog state |}.

Definition addApprovalRequest (request : ApprovalRequest.input)
    (nowMs : Z) (nowIso : string) (state : AgentState) : AgentState :=
  let approval :=
    {| ApprovalRequest.id := "approval_" +:+ pretty nowMs;
       ApprovalRequest.actionType := ApprovalRequest.in_actionType request;
       ApprovalRequest.description := ApprovalRequest.in_description request;
       ApprovalRequest.riskLevel := ApprovalRequest.in_riskLevel request;
       ApprovalRequest.estimatedCost := ApprovalRequest.in_estimatedCost request;
       ApprovalRequest.estimatedDuration := ApprovalRequest.in_estimatedDuration request;
       ApprovalRequest.agentInvolved := ApprovalRequest.in_agentInvolved request;
       ApprovalRequest.status := ApprovalRequest.Pending;
       ApprovalRequest.timestamp := nowIso |} in
  with_pendingApprovals (pendingApprovals state ++ [approval]) state.

(** [{ ...req, status: approved ? 'approved' : 'rejected' }]. *)
Definition resolved (approved : bool) (req : ApprovalRequest.ApprovalRequest) : ApprovalRequest.ApprovalRequest :=
  {| ApprovalRequest.id := ApprovalRequest.id req;
     ApprovalRequest.actionType := ApprovalRequest.actionType req;
     ApprovalRequest.description := ApprovalRequest.description req;
     ApprovalRequest.riskLevel := ApprovalRequest.riskLevel req;
     ApprovalRequest.estimatedCost := ApprovalRequest.estimatedCost req;
     ApprovalRequest.estimatedDuration := ApprovalRequest.estimatedDuration req;
     ApprovalRequest.agentInvolved := ApprovalRequest.agentInvolved req;
     ApprovalRequest.status :=
       if approved then ApprovalRequest.Approved else ApprovalRequest.Rejected;
     ApprovalRequest.timestamp := ApprovalRequest.timestamp req |}.

Definition resolveApprovalRequest (requestId : string) (approved : bool)
    (state : AgentState) : AgentState :=
  with_pendingApprovals
    ((λ req,
        if bool_decide (ApprovalRequest.id req = requestId)
        then resolved approved req else req) <$> pendingApprovals state)
    state.

Definition clearApprovals (state : AgentState) : AgentState :=
  with_pendingApprovals [] state.

(** ** UI and activity actions *)

Definition setExecuting (executing : bool) (task : option string)
    (state : AgentState) : AgentState :=
  {| agents := agents state;
     workflows := workflows state;
     activeWorkflow := activeWorkflow state;
     pendingApprovals := pendingApprovals state;
     isExecuting := executing;
     currentTask := or_string task None;
     activityLog := activityLog state |}.

Definition with_activityLog (l : list (Activity.ActivityLogEntry Any)) (state : AgentState)
    : AgentState :=
  {| agents := agents state;
     workflows := workflows state;
     activeWorkflow := activeWorkflow state;
     pendingApprovals := pendingApprovals state;
     isExecuting := isExecuting state;
     currentTask := currentTask state;
     activityLog := l |}.

(** The entry that [addActivity] builds. *)
Definition activity (agentId action : string) (details : option Any)
    (nowMs : Z) (nowIso : string) : Activity.ActivityLogEntry Any :=
  {| Activity.id := "activity_" +:+ pretty nowMs;
     Activity.agentId := agentId;
     Activity.action := action;
     Activity.timestamp := nowIso;
     Activity.details := details |}.

(** [[activity, ...state.activityLog.slice(0, 99)]]. *)
Definition addActivity (agentId action : string) (details : option Any)
    (nowMs : Z) (nowIso : string) (state : AgentState) : AgentState :=
  with_activityLog
    (activity agentId action details nowMs nowIso :: take 99 (activityLog state))
    state.

Definition clearActivity (state : AgentState) : AgentState :=
  with_activityLog [] state.

(** ** The store as a transition system *)

Inductive Action :=
  | UpdateAgentStatus (agentId : string) (status : Agent.AgentStatus)
      (task error : option string)
  | UpdateAgentProgress (agentId : string) (progress : Z)
  | ResetAgents
  | StartWorkflow (type : string) (steps : list string) (nowMs : Z) (nowIso : string)
  | UpdateWorkflowStatus (workflowId : string) (status : Workflow.WorkflowStatus)
      (currentStep error : option string) (nowIso : string)
  | CompleteWorkflow (workflowId : string) (results : Any) (nowIso : string)
  | ClearWorkflows
  | AddApprovalRequest (request : ApprovalRequest.input) (nowMs : Z) (nowIso : string)
  | ResolveApprovalRequest (requestId : string) (approved : bool)
  | ClearApprovals
  | SetExecuting (executing : bool) (task : option string)
  | AddActivity (agentId action : string) (details : option Any)
      (nowMs : Z) (nowIso : string)
  | ClearActivity.

Definition step (state : AgentState) (a : Action) : AgentState :=
  match a with
  | UpdateAgentStatus agentId status task error =>
      updateAgentStatus agentId status task error state
  | UpdateAgentProgress agentId progress => updateAgentProgress agentId progress state
  | ResetAgents => resetAgents state
  | StartWorkflow type steps nowMs nowIso => startWorkflow type steps nowMs nowIso state
  | UpdateWorkflowStatus workflowId status currentStep error nowIso =>
      updateWorkflowStatus workflowId status currentStep error nowIso state
  | CompleteWorkflow workflowId results nowIso =>
      completeWorkflow workflowId results nowIso state
  | ClearWorkflows => clearWorkflows state
  | AddApprovalRequest request nowMs nowIso =>
      addApprovalRequest request nowMs nowIso state
  | ResolveApprovalRequest requestId approved =>
      resolveApprovalRequest requestId approved state
  | ClearApprovals => clearApprovals state
  | SetExecuting executing task => setExecuting executing task state
  | AddActivity agentId action details nowMs nowIso =>
      addActivity agentId action details nowMs nowIso state
  | ClearActivity => clearActivity state
  end.

Definition run (state : AgentState) (acts : list Action) : AgentState :=
  foldl step state acts.

Inductive reachable : AgentState → Prop :=
  | reachable_initial : reachable initial
  | reachable_step state a : reachable state → reachable (step state a).

(** ** Vocabulary of the properties *)

(** The arguments of one call of [addActivity], with the clock readings. *)
Record ActivityCall := {
  call_agentId : string;
  call_action : string;
  call_details : option Any;
  call_nowMs : Z;
  call_nowIso : string;
}.

Definition entry_of (c : ActivityCall) : Activity.ActivityLogEntry Any :=
  activity (call_agentId c) (call_action c) (call_details c)
    (call_nowMs c) (call_nowIso c).

Definition addActivityCall (state : AgentState) (c : ActivityCall) : AgentState :=
  addActivity (call_agentId c) (call_action c) (call_details c)
    (call_nowMs c) (call_nowIso c) state.

(** A running workflow points at one of its own steps. *)
Definition step_in_steps (w : Workflow.Workflow Any) : Prop :=
  Workflow.status w = Workflow.Running →
  ∃ c, Workflow.currentStep w = Some c ∧ c ∈ Workflow.steps w.

Definition workflows_ok (state : AgentState) : Prop :=
  (∀ w, w ∈ workflows state → step_in_steps w)
  ∧ (∀ w, activeWorkflow state = Some w → step_in_steps w).

(** What the store leaves to its callers: a workflow starts with at least one
    step, and an update to [running] names a step of every workflow that has
    the given identifier. *)
Definition checked (state : AgentState) (a : Action) : Prop :=
  match a with
  | StartWorkflow _ steps _ _ => steps ≠ []
  | UpdateWorkflowStatus workflowId Workflow.Running currentStep _ _ =>
      ∀ w, (w ∈ workflows state ∨ activeWorkflow state = Some w) →
           Workflow.id w = workflowId →
           ∃ c, currentStep = Some c ∧ c ∈ Workflow.steps w
  | _ => True
  end.

Fixpoint checked_run (state : AgentState) (acts : list Action) : Prop :=
  match acts with
  | [] => True
  | a :: acts => checked state a ∧ checked_run (step state a) acts
  end.

(** The decision that an action takes on the requests with the given
    identifier, if it takes one. *)
Definition resolution_by (requestId : string) (a : Action) : option bool :=
  match a with
  | ResolveApprovalRequest id approved =>
      if bool_decide (id = requestId) then Some approved else None
  | _ => None
  end.

(** The decision of the last action of the sequence that takes one. *)
Fixpoint last_resolution (requestId : string) (acts : list Action) : option bool :=
  match acts with
  | [] => None
  | a :: acts =>
      match last_resolution requestId acts with
      | Some approved => Some approved
      | None => resolution_by requestId a
      end
  end.

(** A request used in examples. *)
Definition sampleRequest : ApprovalRequest.input :=
  {| ApprovalRequest.in_actionType := "deployment";
     ApprovalRequest.in_description := "deploy";
     ApprovalRequest.in_riskLevel := ApprovalRequest.High;
     ApprovalRequest.in_estimatedCost := None;
     ApprovalRequest.in_estimatedDuration := None;
     ApprovalRequest.in_agentInvolved := None |}.

End State.

Arguments AgentState : clear implicits.
Arguments Action : clear implicits.
Arguments ActivityCall : clear implicits.

End Store.


(* ====================================================================== *)
(** * The callers of [request], the error hook and [validateConfig] *)
(* ====================================================================== *)

Module ApiCalls.
Import Api.

(** The argument of [request] and of the convenience methods ([config: any]):
    the axios keys the client sets, and [customRetryConfig], the key that
    [healthCheck] adds. *)
Record RequestConfig {D : Type} := {
  method : option string;
  url : option string;
  data : option D;
  timeout : option Z;
  customRetryConfig : option PartialRetryConfig;
}.
Arguments RequestConfig : clear implicits.

Section Calls.
Context {T D : Type}.

(** [request(config, customRetryConfig?)]: spreading an absent second
    argument adds nothing to [this.retryConfig]. The request itself is seen
    through [server], the outcome of each call of the axios instance. *)
Definition request_call (self : RetryConfig) (config : RequestConfig D)
    (customRetryConfig : option PartialRetryConfig) (server : Server T)
    : option (Run T) :=
  request self (default noOverride customRetryConfig) server.

(** [get(url, config)] is [this.request({ ...config, method: 'GET', url })]:
    one argument. *)
Definition get (self : RetryConfig) (url : string) (config : RequestConfig D)
    (server : Server T) : option (Run T) :=
  request_call self
    {| method := Some "GET"%string; url := Some url; data := data config;
       timeout := timeout config; customRetryConfig := customRetryConfig config |}
    None server.

(** [post(url, data, config)]. *)
Definition post (self : RetryConfig) (url : string) (body : option D)
    (config : RequestConfig D) (server : Server T) : option (Run T) :=
  request_call self
    {| method := Some "POST"%string; url := Some url; data := body;
       timeout := timeout config; customRetryConfig := customRetryConfig config |}
    None server.

(** [healthCheck()]: the result and the effects of the underlying request. *)
Definition healthCheck (self : RetryConfig) (server : Server T)
    : option (bool * list Event) :=
  match
    get self "/health"
      {| method := None; url := None; data := None; timeout := Some 5000;
         customRetryConfig :=
           Some {| maxAttempts_opt := Some 2; baseDelay_opt := Some 1000;
                   maxDelay_opt := None; backoffFactor_opt := None;
                   retryableErrors_opt := None |} |}
      server
  with
  | Some run =>
      match outcome run with
      | Returned _ => Some (true, trace run)
      | Thrown _ => Some (false, trace run)
      end
  | None => None
  end.

(** The retryable failures of the attempts before attempt [k]. *)
Definition retried_before (self : RetryConfig) (server : Server T) (k : Z) : Prop :=
  ∀ i, 1 ≤ i < k →
       ∃ e, server i = Rejected e ∧ retryable (handleError self e) = true.

End Calls.

(** ** [useApiErrorHandler] *)

(** What [handleError] of the hook does to the page. *)
Inductive UiEffect :=
  | Redirect (href : string)
  | Alert (text : string).

Definition hook_handleError (error : ApiError) (fallbackMessage : option string)
    : UiEffect :=
  let message :=
    default "An unexpected error occurred"%string
      (or_string (or_string (Some (Api.message error)) fallbackMessage) None) in
  if bool_decide (status error = Some 401) then Redirect "/login"
  else if bool_decide (status error = Some 403) then
    Alert "You do not have permission to perform this action."
  else if retryable error then
    Alert (message +:+ ". The system will retry automatically.")
  else Alert message.

(** [isRetryableError] of the hook: [error?.retryable === true]. *)
Definition hook_isRetryableError (error : option ApiError) : bool :=
  match error with
  | Some e => retryable e
  | None => false
  end.

(** ** [validateConfig] *)

(** The environment variables behind the two URLs that [validateConfig]
    checks. *)
Record UrlEnv := {
  NEXT_PUBLIC_API_URL : option string;
  NEXT_PUBLIC_COPKIT_URL : option string;
}.

(** [process.env.X ?? fallback]. *)
Definition apiUrl (env : UrlEnv) : string :=
  default "http://localhost:8000"%string (NEXT_PUBLIC_API_URL env).

Definition copilotkitUrl (env : UrlEnv) : string :=
  default "http://localhost:8000/copilotkit"%string (NEXT_PUBLIC_COPKIT_URL env).

(** The [errors] array that [validateConfig] collects. *)
Definition configErrors (env : UrlEnv) : list string :=
  (if truthy_string (apiUrl env) then [] else ["API URL is required"%string])
  ++ (if truthy_string (copilotkitUrl env) then []
      else ["CopilotKit URL is required"%string]).

(** [validateConfig()]: [inr true] when it returns, [inl message] when it
    throws; the warning it may log is left out. *)
Definition validateConfig (env : UrlEnv) : string + bool :=
  match configErrors env with
  | [] => inr true
  | errors => inl ("Configuration errors: " +:+ String.concat ", " errors)
  end.

End ApiCalls.

(* ====================================================================== *)
(** * The listeners of the socket manager ([on], [off], [emit]) *)
(* ====================================================================== *)

Module WsListeners.

(** A callback, by its identity: [off] and [indexOf] compare callbacks with
    [===]. *)
Definition Callback := nat.

(** [listeners.indexOf(callback)]: the first position, [None] for [-1]. *)
Fixpoint indexOf (callback : Callback) (listeners : list Callback) : option nat :=
  match listeners with
  | [] => None
  | c :: listeners =>
      if decide (c = callback) then Some 0%nat
      else S <$> indexOf callback listeners
  end.

(** [on(event, callback)] on [eventListeners : Map<string, Function[]>]. *)
Definition on (event : string) (callback : Callback)
    (eventListeners : gmap string (list Callback)) : gmap string (list Callback) :=
  <[event := default [] (eventListeners !! event) ++ [callback]]> eventListeners.

(** [off(event, callback)]; [splice(index, 1)] is [delete index]. *)
Definition off (event : string) (callback : Callback)
    (eventListeners : gmap string (list Callback)) : gmap string (list Callback) :=
  match eventListeners !! event with
  | Some listeners =>
      match indexOf callback listeners with
      | Some index => <[event := delete index listeners]> eventListeners
      | None => eventListeners
      end
  | None => eventListeners
  end.

(** What one [emit] does: the callbacks it called, in order, and those whose
    exception it caught and logged. *)
Record Delivery := { called : list Callback; logged : list Callback }.

(** The [forEach] of [emit]; [throws callback] tells whether the callback
    throws on the data. The callbacks are taken not to register or remove
    listeners while they run. *)
Fixpoint emit_loop (throws : Callback → bool) (listeners : list Callback)
    (d : Delivery) : Delivery :=
  match listeners with
  | [] => d
  | callback :: listeners =>
      let d :=
        if throws callback
        then {| called := called d ++ [callback]; logged := logged d ++ [callback] |}
        else {| called := called d ++ [callback]; logged := logged d |} in
      emit_loop throws listeners d
  end.

Definition emit (throws : Callback → bool) (event : string)
    (eventListeners : gmap string (list Callback)) : Delivery :=
  match eventListeners !! event with
  | Some listeners => emit_loop throws listeners {| called := []; logged := [] |}
  | None => {| called := []; logged := [] |}
  end.

(** The listeners that [emit] finds for an event. *)
Definition listeners_of (event : string)
    (eventListeners : gmap string (list Callback)) : list Callback :=
  default [] (eventListeners !! event).

End WsListeners.

(* ====================================================================== *)
(** * The push-event handlers of the socket manager *)
(* ====================================================================== *)

Module AgentStatusUpdate.
Record AgentStatusUpdate := {
  agentId : string;
  status : Agent.AgentStatus;
  task : option string;
  error : option string;
  progress : option Z;
}.
End AgentStatusUpdate.

Module WorkflowUpdate.
Record WorkflowUpdate {R : Type} := {
  workflowId : string;
  status : Workflow.WorkflowStatus;
  currentStep : option string;
  step : option Z;
  totalSteps : option Z;
  error : option string;
  results : option R;
}.
Arguments WorkflowUpdate : clear implicits.
End WorkflowUpdate.

Module WsHandlers.
Import Store.

(** What the handlers hand to the store as [any]: the results of a workflow,
    of type [R], or the details object of an activity. *)
Inductive Payload {R : Type} :=
  | Results (results : R)
  | AgentDetails (task error : option string) (progress : option Z)
  | WorkflowDetails (workflowId : string) (currentStep : option string)
      (step totalSteps : option Z).
Arguments Payload : clear implicits.

(** The status as the template literal prints it. *)
Definition agentStatus_name (status : Agent.AgentStatus) : string :=
  match status with
  | Agent.Idle => "idle"
  | Agent.Running => "running"
  | Agent.Completed => "completed"
  | Agent.Error => "error"
  end.

Definition workflowStatus_name (status : Workflow.WorkflowStatus) : string :=
  match status with
  | Workflow.Pending => "pending"
  | Workflow.Running => "running"
  | Workflow.Completed => "completed"
  | Workflow.Error => "error"
  end.

Section Handlers.
Context {R : Type}.
(** JavaScript truthiness of a results value. *)
Context (truthy : R → bool).

(** [handleAgentStatusUpdate], as it acts on the store; the delivery to the
    listeners that follows is [WsListeners.emit]. *)
Definition handleAgentStatusUpdate (data : AgentStatusUpdate.AgentStatusUpdate)
    (nowMs : Z) (nowIso : string) (store : AgentState (Payload R))
    : AgentState (Payload R) :=
  let store :=
    updateAgentStatus (AgentStatusUpdate.agentId data) (AgentStatusUpdate.status data)
      (AgentStatusUpdate.task data) (AgentStatusUpdate.error data) store in
  let store :=
    match AgentStatusUpdate.progress data with
    | Some progress =>
        updateAgentProgress (AgentStatusUpdate.agentId data) progress store
    | None => store
    end in
  addActivity (AgentStatusUpdate.agentId data)
    ("Status changed to " +:+ agentStatus_name (AgentStatusUpdate.status data))
    (Some (AgentDetails (AgentStatusUpdate.task data) (AgentStatusUpdate.error data)
             (AgentStatusUpdate.progress data)))
    nowMs nowIso store.

(** [data.status === 'completed' && data.results]. *)
Definition completed_with_results (data : WorkflowUpdate.WorkflowUpdate R)
    : option R :=
  if bool_decide (WorkflowUpdate.status data = Workflow.Completed) then
    match WorkflowUpdate.results data with
    | Some results => if truthy results then Some results else None
    | None => None
    end
  else None.

(** [handleWorkflowUpdate]; [stampIso] is the clock reading of the store
    action, [nowMs] and [nowIso] those of [addActivity]. *)
Definition handleWorkflowUpdate (data : WorkflowUpdate.WorkflowUpdate R)
    (stampIso : string) (nowMs : Z) (nowIso : string)
    (store : AgentState (Payload R)) : AgentState (Payload R) :=
  let store :=
    match completed_with_results data with
    | Some results =>
        completeWorkflow (WorkflowUpdate.workflowId data) (Results results)
          stampIso store
    | None =>
        updateWorkflowStatus (WorkflowUpdate.workflowId data)
          (WorkflowUpdate.status data) (WorkflowUpdate.currentStep data)
          (WorkflowUpdate.error data) stampIso store
    end in
  addActivity "workflow"
    ("Workflow " +:+ workflowStatus_name (WorkflowUpdate.status data))
    (Some (WorkflowDetails (WorkflowUpdate.workflowId data)
             (WorkflowUpdate.currentStep data) (WorkflowUpdate.step data)
             (WorkflowUpdate.totalSteps data)))
    nowMs nowIso store.

(** [handleApprovalRequest] and [handleApprovalResponse], on the fields of
    the message that they read. *)
Definition handleApprovalRequest (data : ApprovalRequest.input)
    (nowMs : Z) (nowIso : string) (store : AgentState (Payload R))
    : AgentState (Payload R) :=
  addApprovalRequest data nowMs nowIso store.

Definition handleApprovalResponse (request_id : string) (approved : bool)
    (store : AgentState (Payload R)) : AgentState (Payload R) :=
  resolveApprovalRequest request_id approved store.

End Handlers.

(** ** The type guards of the type declarations *)

Definition AGENT_TYPES : list string :=
  ["repository_analyzer"; "requirements_extractor"; "architecture_designer";
   "implementation_planner"; "validator"]%string.

(** [isAgentType] on a string value. *)
Definition isAgentType (value : string) : bool :=
  bool_decide (value ∈ AGENT_TYPES).

End WsHandlers.

(* ====================================================================== *)
(** * The authentication manager ([AuthManager]) *)
(* ====================================================================== *)

Module Auth.

Record AuthUser := {
  id : string;
  email : string;
  name : string;
  tenantId : string;
  role : string;
}.

Record AuthTokens := {
  accessToken : string;
  refreshToken : string;
  expiresAt : Z;
}.

(** The two fields of [AuthManager]. *)
Record AuthManager := {
  tokens : option AuthTokens;
  user : option AuthUser;
}.

Definition loggedOut : AuthManager := {| tokens := None; user := None |}.

(** [JSON.parse] on a stored text: [None] when it throws, otherwise the
    value, [null] or an object that the manager takes for what its type
    says. Texts that parse to anything else are outside the model. *)
Record Codec (A : Type) := {
  stringify : A → string;
  parse : string → option (option A);
}.
Arguments stringify {A}.
Arguments parse {A}.

(** The body of a successful login response, as [login] reads it. *)
Record LoginData := {
  login_access_token : string;
  login_refresh_token : string;
  login_expires_in : Z;
  login_user : AuthUser;
}.

(** The body of a successful refresh response. *)
Record RefreshData := {
  refresh_access_token : string;
  refresh_refresh_token : option string;
  refresh_expires_in : Z;
}.

(** What [fetch] followed by [response.json()] comes to: the body of a
    response with [ok], a response without [ok], or an exception (a rejected
    [fetch], a body that is not JSON) with its message. *)
Inductive Fetched (A : Type) :=
  | FetchedOk (data : A)
  | FetchedNotOk
  | FetchedThrows (message : string).
Arguments FetchedOk {A}.
Arguments FetchedNotOk {A}.
Arguments FetchedThrows {A}.

Section Manager.
Context (tokensCodec : Codec AuthTokens) (userCodec : Codec AuthUser).
(** Whether [window] is defined. *)
Context (window : bool).

(** One entry of [loadFromStorage]: the value loaded, if any, and the
    storage after it. *)
Definition loadEntry {A} (codec : Codec A) (key : string) (current : option A)
    (localStorage : gmap string string) : option A * gmap string string :=
  match localStorage !! key with
  | Some stored =>
      if truthy_string stored then
        match parse codec stored with
        | Some value => (value, localStorage)
        | None => (current, delete key localStorage)
        end
      else (current, localStorage)
  | None => (current, localStorage)
  end.

Definition loadFromStorage (m : AuthManager) (localStorage : gmap string string)
    : AuthManager * gmap string string :=
  if window then
    let '(tokens', localStorage) :=
      loadEntry tokensCodec "auth_tokens" (tokens m) localStorage in
    let '(user', localStorage) :=
      loadEntry userCodec "auth_user" (user m) localStorage in
    ({| tokens := tokens'; user := user' |}, localStorage)
  else (m, localStorage).

(** The constructor: both fields start as [null], then [loadFromStorage]. *)
Definition constructor (localStorage : gmap string string)
    : AuthManager * gmap string string :=
  loadFromStorage loggedOut localStorage.

Definition saveEntry {A} (codec : Codec A) (key : string) (value : option A)
    (localStorage : gmap string string) : gmap string string :=
  match value with
  | Some v => <[key := stringify codec v]> localStorage
  | None => delete key localStorage
  end.

Definition saveToStorage (m : AuthManager) (localStorage : gmap string string)
    : gmap string string :=
  if window then
    saveEntry userCodec "auth_user" (user m)
      (saveEntry tokensCodec "auth_tokens" (tokens m) localStorage)
  else localStorage.

(** [login]: [inl user] when it returns, [inr message] when it throws;
    [now] is [Date.now()]. *)
Definition login (now : Z) (response : Fetched LoginData)
    (m : AuthManager) (localStorage : gmap string string)
    : AuthManager * gmap string string * (AuthUser + string) :=
  match response with
  | FetchedOk data =>
      let m :=
        {| tokens :=
             Some {| accessToken := login_access_token data;
                     refreshToken := login_refresh_token data;
                     expiresAt := now + login_expires_in data * 1000 |};
           user := Some (login_user data) |} in
      (m, saveToStorage m localStorage, inl (login_user data))
  | FetchedNotOk => (m, localStorage, inr "Login failed"%string)
  | FetchedThrows message => (m, localStorage, inr message)
  end.

(** [logout]: whatever becomes of the request, the fields are cleared and
    saved. The boolean tells whether a request was sent. *)
Definition logout (m : AuthManager) (localStorage : gmap string string)
    : AuthManager * gmap string string * bool :=
  (loggedOut, saveToStorage loggedOut localStorage,
   bool_decide (is_Some (tokens m))).

Definition refreshTokens (now : Z) (response : Fetched RefreshData)
    (m : AuthManager) (localStorage : gmap string string)
    : AuthManager * gmap string string * bool :=
  match tokens m with
  | None => (m, localStorage, false)
  | Some old =>
      match response with
      | FetchedOk data =>
          let m :=
            {| tokens :=
                 Some {| accessToken := refresh_access_token data;
                         refreshToken :=
                           default (refreshToken old)
                             (or_string (refresh_refresh_token data) None);
                         expiresAt := now + refresh_expires_in data * 1000 |};
               user := user m |} in
          (m, saveToStorage m localStorage, true)
      | FetchedNotOk | FetchedThrows _ =>
          (loggedOut, saveToStorage loggedOut localStorage, false)
      end
  end.

Definition isTokenExpired (now : Z) (m : AuthManager) : bool :=
  match tokens m with
  | None => true
  | Some t => bool_decide (expiresAt t ≤ now)
  end.

(** [getValidToken]; [response] is what the refresh request would come to
    and [now'] the clock when the refreshed tokens are stamped. *)
Definition getValidToken (now now' : Z) (response : Fetched RefreshData)
    (m : AuthManager) (localStorage : gmap string string)
    : AuthManager * gmap string string * option string :=
  match tokens m with
  | None => (m, localStorage, None)
  | Some _ =>
      if isTokenExpired now m then
        let '(m, localStorage, refreshed) :=
          refreshTokens now' response m localStorage in
        if refreshed then (m, localStorage, accessToken <$> tokens m)
        else (m, localStorage, None)
      else (m, localStorage, accessToken <$> tokens m)
  end.

Definition getUser (m : AuthManager) : option AuthUser := user m.

Definition isAuthenticated (now : Z) (m : AuthManager) : bool :=
  bool_decide (is_Some (user m)) && bool_decide (is_Some (tokens m))
  && negb (isTokenExpired now m).

End Manager.

(** A codec that gives back what it was given, on one value. *)
Definition round_trips {A} (codec : Codec A) (value : option A) : Prop :=
  ∀ v, value = Some v →
       parse codec (stringify codec v) = Some (Some v)
       ∧ stringify codec v ≠ ""%string.

(** Sample values and a codec that knows them, for examples. *)
Definition sampleTokens : AuthTokens :=
  {| accessToken := "a1"; refreshToken := "r1"; expiresAt := 5000 |}.

Definition sampleUser : AuthUser :=
  {| id := "u1"; email := "ada@example.org"; name := "Ada";
     tenantId := "t1"; role := "admin" |}.

Definition sampleTokensCodec : Codec AuthTokens :=
  {| stringify := λ _, "{tokens}"%string;
     parse := λ s, if bool_decide (s = "{tokens}"%string)
                   then Some (Some sampleTokens) else None |}.

Definition sampleUserCodec : Codec AuthUser :=
  {| stringify := λ _, "{user}"%string;
     parse := λ s, if bool_decide (s = "{user}"%string)
                   then Some (Some sampleUser) else None |}.

End Auth.

(* ====================================================================== *)
(** * Properties of the request client *)
(* ====================================================================== *)

Module ApiSpec.
Import Api.

Section Loop.
Context {T : Type}.
Implicit Types (self rc : RetryConfig) (server : Server T) (tr : list Event).

Lemma retried_attempts_snoc self a j :
  retried_attempts self a (S j)
  = retried_attempts self a j
      ++ [EvRequest (a + Z.of_nat j); EvSleep (calculateDelay self (a + Z.of_nat j))].
Proof.
  revert a. induction j as [|j IH]; intros a.
  - cbn. by rewrite Z.add_0_r.
  - change (retried_attempts self a (S (S j)))
      with (EvRequest a :: EvSleep (calculateDelay self a)
              :: retried_attempts self (a + 1) (S j)).
    rewrite IH. cbn [retried_attempts app].
    by replace (a + 1 + Z.of_nat j) with (a + Z.of_nat (S j)) by lia.
Qed.

(** One iteration that fails with a retryable error before the last attempt. *)
Lemma request_loop_retry self rc server fuel a lastError tr e :
  a < maxAttempts rc →
  server a = Rejected e →
  retryable (handleError self e) = true →
  request_loop self rc server (S fuel) a lastError tr
  = request_loop self rc server fuel (a + 1) (handleError self e)
      (tr ++ [EvRequest a; EvSleep (calculateDelay self a)]).
Proof.
  intros Hlt Hsrv Hretry. cbn [request_loop].
  rewrite bool_decide_eq_true_2 by lia.
  rewrite Hsrv. cbn [client_request]. rewrite Hretry.
  rewrite bool_decide_eq_false_2 by lia. cbn [orb negb].
  by rewrite <- app_assoc.
Qed.

(** [j] such iterations in a row. *)
Lemma request_loop_retries self rc server j : ∀ fuel a lastError tr,
  a + Z.of_nat j ≤ maxAttempts rc →
  (∀ i, a ≤ i < a + Z.of_nat j →
        ∃ e, server i = Rejected e ∧ retryable (handleError self e) = true) →
  ∃ lastError',
    request_loop self rc server (j + fuel) a lastError tr
    = request_loop self rc server fuel (a + Z.of_nat j) lastError'
        (tr ++ retried_attempts self a j).
Proof.
  induction j as [|j IH]; intros fuel a lastError tr Hmax Hfail.
  - exists lastError. cbn. by rewrite Z.add_0_r, app_nil_r.
  - destruct (Hfail a) as (e & Hsrv & Hretry); [lia|].
    destruct (IH fuel (a + 1) (handleError self e)
                (tr ++ [EvRequest a; EvSleep (calculateDelay self a)]))
      as [lastError' Hrec]; [lia| |].
    + intros i Hi. apply Hfail. lia.
    + exists lastError'. change (S j + fuel)%nat with (S (j + fuel)).
      rewrite (request_loop_retry self rc server _ a lastError tr e) by (done || lia).
      rewrite Hrec. f_equal; [lia|]. by rewrite <- app_assoc.
Qed.

(** The run of [request] when attempt [k] is reached and ends the loop. *)
Lemma request_reaches self custom server (k : nat) :
  (1 ≤ k)%nat →
  Z.of_nat k ≤ maxAttempts (spread self custom) →
  (∀ i, 1 ≤ i < Z.of_nat k →
        ∃ e, server i = Rejected e ∧ retryable (handleError self e) = true) →
  match server (Z.of_nat k) with
  | Resolved response =>
      request self custom server
      = Some {| outcome := Returned response; trace := retry_trace self k |}
  | Rejected e =>
      Z.of_nat k = maxAttempts (spread self custom)
      ∨ retryable (handleError self e) = false →
      request self custom server
      = Some {| outcome := Thrown (handleError self e); trace := retry_trace self k |}
  end.
Proof.
  intros Hk Hmax Hfail. destruct k as [|j]; [lia|].
  unfold request. set (rc := spread self custom) in *.
  assert (∃ fuel, S (Z.to_nat (maxAttempts rc)) = (j + S fuel)%nat) as [fuel ->].
  { exists (Z.to_nat (maxAttempts rc) - j)%nat. lia. }
  destruct (request_loop_retries self rc server j (S fuel) 1 unknownError [])
    as [lastError' ->]; [lia| |].
  { intros i Hi. apply Hfail. lia. }
  replace (Z.of_nat (S j)) with (1 + Z.of_nat j) by lia.
  cbn [request_loop app retry_trace].
  rewrite bool_decide_eq_true_2 by lia.
  destruct (server (1 + Z.of_nat j)) as [response|e]; cbn [client_request]; [done|].
  intros [Heq|Hterm].
  - rewrite bool_decide_eq_true_2 by lia. done.
  - rewrite Hterm. cbn [negb]. by rewrite orb_true_r.
Qed.

(** Every run of the loop ends, and its trace is that of some number of
    attempts not above [maxAttempts]. *)
Lemma request_loop_shape self rc server fuel : ∀ (n : nat) lastError,
  (n = 0%nat ∨ Z.of_nat n + 1 ≤ maxAttempts rc) →
  (Z.to_nat (maxAttempts rc) < fuel + n)%nat →
  ∃ run (k : nat),
    request_loop self rc server fuel (Z.of_nat n + 1) lastError
      (retried_attempts self 1 n) = Some run
    ∧ trace run = retry_trace self k
    ∧ Z.of_nat k ≤ Z.max 0 (maxAttempts rc).
Proof.
  induction fuel as [|fuel IH]; intros n lastError Hn Hfuel.
  - exfalso. lia.
  - cbn [request_loop]. case_bool_decide as Hle.
    + destruct (server (Z.of_nat n + 1)) as [response|e]; cbn [client_request].
      * eexists _, (S n). split; [done|]. cbn [trace retry_trace].
        split; [by rewrite (Z.add_comm 1)|lia].
      * destruct (bool_decide (Z.of_nat n + 1 = maxAttempts rc)
                  || negb (retryable (handleError self e))) eqn:Hstop.
        -- eexists _, (S n). split; [done|]. cbn [trace retry_trace].
           split; [by rewrite (Z.add_comm 1)|lia].
        -- apply orb_false_iff in Hstop as [Hneq _].
           apply bool_decide_eq_false in Hneq.
           rewrite <- app_assoc. cbn [app].
           replace (retried_attempts self 1 n
                      ++ [EvRequest (Z.of_nat n + 1);
                          EvSleep (calculateDelay self (Z.of_nat n + 1))])
             with (retried_attempts self 1 (S n)).
           2:{ rewrite retried_attempts_snoc. by rewrite (Z.add_comm 1). }
           replace (Z.of_nat n + 1 + 1) with (Z.of_nat (S n) + 1) by lia.
           apply IH; lia.
    + destruct Hn as [->|Hn]; [|lia].
      eexists _, 0%nat. split; [done|]. cbn. split; [done|lia].
Qed.

Lemma request_shape self custom server :
  ∃ run (k : nat),
    request self custom server = Some run
    ∧ trace run = retry_trace self k
    ∧ Z.of_nat k ≤ Z.max 0 (maxAttempts (spread self custom)).
Proof.
  unfold request.
  apply (request_loop_shape self _ server _ 0%nat unknownError); [by left|lia].
Qed.

Lemma requests_of_retried self a j :
  requests_of (retried_attempts self a j) = (λ i : nat, a + Z.of_nat i) <$> seq 0 j.
Proof.
  revert a. induction j as [|j IH]; intros a; [done|].
  cbn [retried_attempts]. unfold requests_of in *. cbn [omap list_omap].
  rewrite IH. cbn [seq fmap list_fmap]. rewrite Z.add_0_r. f_equal.
  rewrite <- seq_shift, <- list_fmap_compose.
  apply list_fmap_ext. intros _ i _. cbn. lia.
Qed.

Lemma sleeps_of_retried self a j :
  sleeps_of (retried_attempts self a j)
  = (λ i : nat, calculateDelay self (a + Z.of_nat i)) <$> seq 0 j.
Proof.
  revert a. induction j as [|j IH]; intros a; [done|].
  cbn [retried_attempts]. unfold sleeps_of in *. cbn [omap list_omap].
  rewrite IH. cbn [seq fmap list_fmap]. rewrite Z.add_0_r. f_equal.
  rewrite <- seq_shift, <- list_fmap_compose.
  apply list_fmap_ext. intros _ i _. cbn. f_equal. lia.
Qed.

Lemma attempts_of_retry_trace self k : attempts_of (retry_trace self k) = k.
Proof.
  destruct k as [|j]; [done|]. unfold attempts_of, retry_trace.
  unfold requests_of. rewrite omap_app. fold (requests_of (retried_attempts self 1 j)).
  rewrite requests_of_retried. cbn. rewrite length_app, length_fmap, length_seq. cbn. lia.
Qed.

Lemma sleeps_of_retry_trace self j :
  sleeps_of (retry_trace self (S j))
  = (λ i : nat, calculateDelay self (1 + Z.of_nat i)) <$> seq 0 j.
Proof.
  unfold retry_trace, sleeps_of. rewrite omap_app.
  fold (sleeps_of (retried_attempts self 1 j)).
  rewrite sleeps_of_retried. cbn. by rewrite app_nil_r.
Qed.

(** In the trace of a run, the sleep that comes right before attempt [m] is
    the delay computed for attempt [m - 1]. *)
Lemma retried_sleep_before self j : ∀ a pre post d m,
  retried_attempts self a j ++ [EvRequest (a + Z.of_nat j)]
  = pre ++ EvSleep d :: EvRequest m :: post →
  d = calculateDelay self (m - 1) ∧ a + 1 ≤ m ≤ a + Z.of_nat j.
Proof.
  induction j as [|j IH]; intros a pre post d m Heq.
  - destruct pre as [|x [|y pre]]; discriminate.
  - cbn [retried_attempts app] in Heq.
    destruct pre as [|x [|y pre]]; cbn [app] in Heq.
    + discriminate.
    + injection Heq as _ <- Hrest. split.
      * destruct j; cbn in Hrest; injection Hrest as <-; f_equal; lia.
      * destruct j; cbn in Hrest; injection Hrest as <-; lia.
    + injection Heq as _ _ Hrest.
      replace (a + Z.of_nat (S j)) with (a + 1 + Z.of_nat j) in Hrest by lia.
      apply IH in Hrest. lia.
Qed.

Lemma trace_sleep_before self custom server run pre post d m :
  request self custom server = Some run →
  trace run = pre ++ EvSleep d :: EvRequest m :: post →
  d = calculateDelay self (m - 1)
  ∧ 2 ≤ m ≤ maxAttempts (spread self custom).
Proof.
  intros Hrun Htr.
  destruct (request_shape self custom server) as (run' & k & Hrun' & Hshape & Hk).
  rewrite Hrun in Hrun'. injection Hrun' as <-.
  rewrite Htr in Hshape. destruct k as [|j].
  { destruct pre; discriminate. }
  symmetry in Hshape. apply retried_sleep_before in Hshape. lia.
Qed.

(** [request] reads nothing but [maxAttempts] from the per-call override:
    the delays come from the configuration of the instance. *)
Lemma request_loop_maxAttempts_only self rc rc' server fuel : ∀ a lastError tr,
  maxAttempts rc = maxAttempts rc' →
  request_loop self rc server fuel a lastError tr
  = request_loop self rc' server fuel a lastError tr.
Proof.
  induction fuel as [|fuel IH]; intros a lastError tr Hm; [done|].
  cbn [request_loop]. rewrite Hm.
  case_bool_decide; [|done].
  destruct (client_request self (server a)); [done|].
  destruct (_ || _); [done|]. by apply IH.
Qed.

Lemma request_override_delays_ignored self custom server :
  request self custom server
  = request self
      {| maxAttempts_opt := maxAttempts_opt custom; baseDelay_opt := None;
         maxDelay_opt := None; backoffFactor_opt := None;
         retryableErrors_opt := None |} server.
Proof.
  unfold request. cbn zeta.
  replace (maxAttempts (spread self custom))
    with (maxAttempts (spread self
            {| maxAttempts_opt := maxAttempts_opt custom; baseDelay_opt := None;
               maxDelay_opt := None; backoffFactor_opt := None;
               retryableErrors_opt := None |})) by done.
  by apply request_loop_maxAttempts_only.
Qed.

End Loop.

Lemma calculateDelay_formula self n :
  calculateDelay self n
  = delay_formula (baseDelay self) (backoffFactor self) (maxDelay self) n.
Proof. reflexivity. Qed.

(** The statuses that the instance built by the constructor retries. *)
Lemma constructor_retryable_status cfg st :
  isRetryableError (constructor cfg) (Some (KNum st)) = true
  ↔ st ∈ [408; 429; 500; 502; 503; 504].
Proof.
  unfold isRetryableError, falsy. cbn [constructor retryableErrors].
  case_bool_decide as Hz.
  - subst st. split; [done|]. intros Hin. exfalso.
    repeat (apply elem_of_cons in Hin as [Hin|Hin]; [discriminate|]).
    by apply elem_of_nil in Hin.
  - rewrite bool_decide_eq_true. rewrite !elem_of_cons, !elem_of_nil.
    split.
    + intros [H|[H|[H|[H|[H|[H|[H|[H|[]]]]]]]]]; try discriminate;
        injection H as ->; tauto.
    + intros [->|[->|[->|[->|[->|[->|[]]]]]]]; tauto.
Qed.

(** The message of a classified response error: the body's [message] when
    it is not empty, else the body's [detail] when it is not empty, else the
    text built from the status. An empty [detail] does not become the
    message. *)
Lemma handleError_response_message self st data :
  message (handleError self (ErrResponse st data))
  = match data ≫= data_message with
    | Some (String c m) => String c m
    | _ =>
        match data ≫= data_detail with
        | Some (String c d) => String c d
        | _ => "HTTP " +:+ pretty st +:+ " Error"
        end
    end.
Proof.
  cbn [handleError message].
  destruct (data ≫= data_message) as [[|c m]|];
    destruct (data ≫= data_detail) as [[|c' d]|]; reflexivity.
Qed.

Example handleError_empty_detail self :
  message
    (handleError self
       (ErrResponse 404
          (Some {| data_message := None; data_detail := Some ""%string;
                   data_code := None |})))
  = "HTTP 404 Error"%string
  ∧ message
      (handleError self
         (ErrResponse 404
            (Some {| data_message := Some ""%string;
                     data_detail := Some "Not Found"%string;
                     data_code := None |})))
    = "Not Found"%string
  ∧ message (handleError self (ErrSetup (Some ""%string) None))
    = "Unknown error occurred"%string.
Proof. by split; [|split]. Qed.

(** C1. When the first [maxAttempts - 1] attempts of a request each fail with
    HTTP status 503, classified retryable, and attempt number [maxAttempts]
    succeeds, [request] returns that response; its effects are the
    [maxAttempts] attempts with one sleep between two consecutive attempts,
    the sleep after attempt [n] lasting
    [min (baseDelay * backoffFactor^(n-1)) maxDelay] milliseconds of the
    instance's configuration; it makes [maxAttempts] attempts and no more. *)
Theorem request_succeeds_after_retries {T} self custom (server : Server T) response :
  1 ≤ maxAttempts (spread self custom) →
  isRetryableError self (Some (KNum 503)) = true →
  (∀ i, 1 ≤ i < maxAttempts (spread self custom) →
        ∃ data, server i = Rejected (ErrResponse 503 data)) →
  server (maxAttempts (spread self custom)) = Resolved response →
  ∃ run,
    request self custom server = Some run
    ∧ outcome run = Returned response
    ∧ trace run = retry_trace self (Z.to_nat (maxAttempts (spread self custom)))
    ∧ sleeps_of (trace run)
      = delay_formula (baseDelay self) (backoffFactor self) (maxDelay self)
          <$> seqZ 1 (maxAttempts (spread self custom) - 1)
    ∧ Z.of_nat (attempts_of (trace run)) = maxAttempts (spread self custom).
Proof.
  intros Hm H503 Hfail Hok.
  set (m := maxAttempts (spread self custom)) in *.
  pose proof (request_reaches self custom server (Z.to_nat m)) as Hrun.
  rewrite Z2Nat.id in Hrun by lia. rewrite Hok in Hrun.
  eexists. split.
  { apply Hrun; [lia|fold m; lia|].
    intros i Hi. destruct (Hfail i Hi) as [data ->].
    eexists. split; [done|]. exact H503. }
  cbn [outcome trace]. split; [done|]. split; [done|]. split.
  - destruct (Z.to_nat m) as [|j] eqn:Hj; [lia|].
    rewrite sleeps_of_retry_trace. unfold seqZ.
    replace (Z.to_nat (m - 1)) with j by lia.
    rewrite <- list_fmap_compose.
    apply list_fmap_ext. intros _ i _. cbn.
    rewrite calculateDelay_formula. f_equal. lia.
  - rewrite attempts_of_retry_trace. lia.
Qed.

Lemma request_succeeds_after_retries_witness :
  ∃ run,
    request (constructor (config None)) noOverride
      (λ i, if bool_decide (i = 3) then Resolved "ok"%string
            else Rejected (ErrResponse 503 None)) = Some run
    ∧ outcome run = Returned "ok"%string
    ∧ trace run = [EvRequest 1; EvSleep 1000; EvRequest 2; EvSleep 2000; EvRequest 3]
    ∧ sleeps_of (trace run) = [1000; 2000]
    ∧ Z.of_nat (attempts_of (trace run)) = 3.
Proof.
  apply (request_succeeds_after_retries (constructor (config None)) noOverride
           (λ i, if bool_decide (i = 3) then Resolved "ok"%string
                 else Rejected (ErrResponse 503 None)) "ok"%string).
  - cbn. lia.
  - reflexivity.
  - cbn. intros i Hi. exists None. rewrite bool_decide_eq_false_2 by lia. reflexivity.
  - reflexivity.
Defined.

(** C2. For every attempt number [n >= 1], the delay computed for attempt [n]
    is [min (baseDelay * backoffFactor^(n-1)) maxDelay], and in every run of
    [request] the sleep that precedes attempt [n + 1] lasts exactly that
    long; with base 1000, factor 2 and cap 30000 the delays of attempts 1 to
    6 are 1000, 2000, 4000, 8000, 16000 and 30000. *)
Theorem backoff_delay_formula {T} self custom (server : Server T) run pre post d n :
  1 ≤ n →
  request self custom server = Some run →
  trace run = pre ++ EvSleep d :: EvRequest (n + 1) :: post →
  calculateDelay self n
  = Z.min (baseDelay self * backoffFactor self ^ (n - 1)) (maxDelay self)
  ∧ d = Z.min (baseDelay self * backoffFactor self ^ (n - 1)) (maxDelay self)
  ∧ (baseDelay self = 1000 → backoffFactor self = 2 → maxDelay self = 30000 →
     calculateDelay self <$> [1; 2; 3; 4; 5; 6]
     = [1000; 2000; 4000; 8000; 16000; 30000]).
Proof.
  intros Hn Hrun Htr. split; [done|]. split.
  2:{ intros Hb Hf Hc. unfold calculateDelay. by rewrite Hb, Hf, Hc. }
  destruct (trace_sleep_before self custom server run pre post d (n + 1) Hrun Htr)
    as [-> _].
  by replace (n + 1 - 1) with n by lia.
Qed.

Lemma backoff_delay_formula_witness :
  calculateDelay (constructor (config None)) 2 = 2000
  ∧ 2000 = 2000
  ∧ (1000 = 1000 → 2 = 2 → 30000 = 30000 →
     calculateDelay (constructor (config None)) <$> [1; 2; 3; 4; 5; 6]
     = [1000; 2000; 4000; 8000; 16000; 30000]).
Proof.
  apply (backoff_delay_formula (constructor (config None)) noOverride
           (λ i, if bool_decide (i = 3) then Resolved "ok"%string
                 else Rejected (ErrResponse 503 None))
           {| outcome := Returned "ok"%string;
              trace := [EvRequest 1; EvSleep 1000; EvRequest 2; EvSleep 2000; EvRequest 3] |}
           [EvRequest 1; EvSleep 1000; EvRequest 2] [] 2000 2).
  - lia.
  - reflexivity.
  - reflexivity.
Defined.

(** C3. The instance classifies an HTTP response error as retryable exactly
    when its status is 408, 429, 500, 502, 503 or 504, and a failure without
    a response always as retryable. Hence when attempt [k] of a request fails
    with any other status (401, 403 and the rest), [request] throws that
    error right away: attempt [k] is the last effect of the run, whatever
    [maxAttempts] is. *)
Theorem terminal_status_not_retried {T} cfg custom (server : Server T) (k : nat) st data :
  (1 ≤ k)%nat →
  Z.of_nat k ≤ maxAttempts (spread (constructor cfg) custom) →
  (∀ i, 1 ≤ i < Z.of_nat k →
        ∃ e, server i = Rejected e
             ∧ retryable (handleError (constructor cfg) e) = true) →
  server (Z.of_nat k) = Rejected (ErrResponse st data) →
  st ∉ [408; 429; 500; 502; 503; 504] →
  (∀ st' data',
     retryable (handleError (constructor cfg) (ErrResponse st' data')) = true
     ↔ st' ∈ [408; 429; 500; 502; 503; 504])
  ∧ retryable (handleError (constructor cfg) ErrNoResponse) = true
  ∧ ∃ run,
      request (constructor cfg) custom server = Some run
      ∧ outcome run = Thrown (handleError (constructor cfg) (ErrResponse st data))
      ∧ trace run = retry_trace (constructor cfg) k
      ∧ attempts_of (trace run) = k
      ∧ last (trace run) = Some (EvRequest (Z.of_nat k)).
Proof.
  intros Hk Hmax Hfail Hsrv Hst.
  split; [intros st' data'; apply constructor_retryable_status|].
  split; [done|].
  pose proof (request_reaches (constructor cfg) custom server k Hk Hmax Hfail) as Hrun.
  rewrite Hsrv in Hrun. eexists. split.
  { apply Hrun. right. cbn [handleError retryable].
    destruct (isRetryableError _ _) eqn:Hr; [|done].
    by apply constructor_retryable_status in Hr. }
  cbn [outcome trace]. split; [done|]. split; [done|].
  split; [apply attempts_of_retry_trace|].
  destruct k as [|j]; [lia|]. cbn [retry_trace].
  rewrite last_snoc. do 2 f_equal. lia.
Qed.

Lemma terminal_status_not_retried_witness :
  (∀ st' data',
     retryable (handleError (constructor (config None)) (ErrResponse st' data')) = true
     ↔ st' ∈ [408; 429; 500; 502; 503; 504])
  ∧ retryable (handleError (constructor (config None)) ErrNoResponse) = true
  ∧ ∃ run,
      request (T := string) (constructor (config None)) noOverride
        (λ _, Rejected (ErrResponse 401 None)) = Some run
      ∧ outcome run
        = Thrown (handleError (constructor (config None)) (ErrResponse 401 None))
      ∧ trace run = retry_trace (constructor (config None)) 1
      ∧ attempts_of (trace run) = 1%nat
      ∧ last (trace run) = Some (EvRequest 1).
Proof.
  apply (terminal_status_not_retried (config None) noOverride
           (λ _, Rejected (ErrResponse 401 None)) 1 401 None).
  - lia.
  - cbn. lia.
  - intros i Hi. lia.
  - reflexivity.
  - intros Hin. repeat (apply elem_of_cons in Hin as [Hin|Hin]; [discriminate|]).
    by apply elem_of_nil in Hin.
Defined.

End ApiSpec.

(* ====================================================================== *)
(** * Properties of the agent store *)
(* ====================================================================== *)

Module StoreSpec.
Import Store.

Section Facts.
Context {Any : Type}.
Implicit Types (state : AgentState Any) (a : Action Any) (acts : list (Action Any)).

Lemma state_eta state :
  {| agents := agents state; workflows := workflows state;
     activeWorkflow := activeWorkflow state;
     pendingApprovals := pendingApprovals state;
     isExecuting := isExecuting state; currentTask := currentTask state;
     activityLog := activityLog state |} = state.
Proof. by destruct state. Qed.

(** Mapping a function that changes only the elements matching [p] over a
    list none of whose elements match. *)
Lemma fmap_unmatched {A} (p : A → bool) (f : A → A) (l : list A) :
  (∀ x, x ∈ l → p x = false) →
  (λ x, if p x then f x else x) <$> l = l.
Proof.
  intros Hno. rewrite <- (list_fmap_id l) at 2.
  apply list_fmap_ext. intros i x Hx. rewrite Hno; [done|].
  by apply list_elem_of_lookup_2 in Hx.
Qed.

(** ** Activity log *)

Lemma activityLog_bounded state :
  reachable state → (length (activityLog state) ≤ 100)%nat.
Proof.
  induction 1 as [|state a _ IH]; [cbn; lia|].
  destruct a; cbn; try exact IH; [|lia].
  rewrite length_take. lia.
Qed.

Lemma take_app_take {A} (n : nat) (l k : list A) :
  take n (l ++ take n k) = take n (l ++ k).
Proof.
  rewrite !take_app, take_take. do 2 f_equal. lia.
Qed.

Lemma addActivityCalls_log calls : ∀ state,
  calls ≠ [] →
  activityLog (foldl addActivityCall state calls)
  = take 100 (reverse (entry_of <$> calls) ++ activityLog state).
Proof.
  induction calls as [|c calls IH]; intros state Hne; [done|].
  cbn [foldl fmap list_fmap]. rewrite reverse_cons, <- app_assoc. cbn [app].
  destruct calls as [|c' calls].
  - cbn. done.
  - rewrite IH by done.
    change (activityLog (addActivityCall state c))
      with (take 100 (entry_of c :: activityLog state)).
    apply take_app_take.
Qed.

(** ** Approvals *)

Lemma approval_step_lookup state a i req req' :
  pendingApprovals state !! i = Some req →
  pendingApprovals (step state a) !! i = Some req' →
  req' = req
  ∨ ∃ approved, a = ResolveApprovalRequest (ApprovalRequest.id req) approved
                ∧ req' = resolved approved req.
Proof.
  intros Hreq Hreq'.
  destruct a; cbn in Hreq'; try (left; congruence).
  - rewrite lookup_app_l in Hreq' by (by eapply lookup_lt_Some).
    left; congruence.
  - rewrite list_lookup_fmap, Hreq in Hreq'. cbn in Hreq'.
    case_bool_decide as Hid; injection Hreq' as <-; [|by left].
    right. exists approved. by subst requestId.
  - by rewrite lookup_nil in Hreq'.
Qed.

Lemma approval_step_kept state a i req :
  a ≠ ClearApprovals →
  pendingApprovals state !! i = Some req →
  is_Some (pendingApprovals (step state a) !! i).
Proof.
  intros Hne Hreq. apply lookup_lt_is_Some.
  apply lookup_lt_Some in Hreq.
  destruct a; cbn; try done.
  - rewrite length_app. lia.
  - by rewrite length_fmap.
Qed.

Lemma resolved_resolved b b' req : resolved b (resolved b' req) = resolved b req.
Proof. done. Qed.

(** ** Workflows *)

Lemma workflows_ok_step state a :
  workflows_ok state → checked state a → workflows_ok (step state a).
Proof.
  intros [Hall Hact] Hchk.
  destruct a; try (split; [exact Hall|exact Hact]).
  - (* startWorkflow *)
    cbn in Hchk. destruct steps as [|s steps]; [done|].
    split.
    + intros w Hw. cbn in Hw. apply elem_of_app in Hw as [Hw|Hw]; [by apply Hall|].
      apply list_elem_of_singleton in Hw as ->.
      intros _. exists s. cbn. split; [done|]. apply elem_of_cons; by left.
    + intros w Hw. cbn in Hw. injection Hw as <-.
      intros _. exists s. cbn. split; [done|]. apply elem_of_cons; by left.
  - (* updateWorkflowStatus *)
    split.
    + intros w Hw. cbn in Hw. apply list_elem_of_fmap in Hw as (w0 & -> & Hw0).
      case_bool_decide as Hid; [|by apply Hall].
      intros Hrun. cbn in Hrun. subst status. cbn.
      apply (Hchk w0); [by left|done].
    + intros w Hw. cbn in Hw.
      destruct (activeWorkflow state) as [active|] eqn:Hactive; [|done].
      case_bool_decide as Hid; injection Hw as <-; [|by apply Hact].
      intros Hrun. cbn in Hrun. subst status. cbn.
      apply (Hchk active); [by right|done].
  - (* completeWorkflow *)
    split.
    + intros w Hw. cbn in Hw. apply list_elem_of_fmap in Hw as (w0 & -> & Hw0).
      case_bool_decide as Hid; [|by apply Hall].
      intros Hrun. discriminate.
    + intros w Hw. cbn in Hw.
      destruct (activeWorkflow state) as [active|] eqn:Hactive; [|done].
      case_bool_decide as Hid; injection Hw as <-; [|by apply Hact].
      intros Hrun. discriminate.
  - (* clearWorkflows *)
    split; [|done]. intros w Hw. cbn in Hw. by apply elem_of_nil in Hw.
Qed.

End Facts.

(** C5. From every reachable state of the store and for every sequence of
    [addActivity] calls, the log holds at most 100 entries; it is the list of
    the new entries, newest first, followed by the old log, cut after 100
    entries, so what is evicted are the oldest entries. In particular 105
    calls on an empty log leave exactly 100 entries, the entry of the last
    call first, the entries of the first 5 calls gone. *)
Theorem activity_log_capacity {Any} (state : AgentState Any) calls :
  reachable state →
  (length (activityLog (foldl addActivityCall state calls)) ≤ 100)%nat
  ∧ activityLog (foldl addActivityCall state calls)
    = take 100 (reverse (entry_of <$> calls) ++ activityLog state)
  ∧ (activityLog state = [] → length calls = 105%nat →
     length (activityLog (foldl addActivityCall state calls)) = 100%nat
     ∧ head (activityLog (foldl addActivityCall state calls))
       = last (entry_of <$> calls)
     ∧ activityLog (foldl addActivityCall state calls)
       = reverse (drop 5 (entry_of <$> calls))).
Proof.
  intros Hreach.
  assert (activityLog (foldl addActivityCall state calls)
          = take 100 (reverse (entry_of <$> calls) ++ activityLog state)) as Hlog.
  { destruct calls as [|c calls]; [|by apply addActivityCalls_log].
    cbn. rewrite take_ge; [done|]. by apply activityLog_bounded. }
  split; [|split; [exact Hlog|]].
  - rewrite Hlog, length_take. lia.
  - intros Hempty Hlen. rewrite Hlog, Hempty, app_nil_r.
    assert (take 100 (reverse (entry_of <$> calls))
            = reverse (drop 5 (entry_of <$> calls))) as ->.
    { rewrite take_reverse, length_fmap, Hlen. done. }
    split; [|split; [|done]].
    + rewrite length_reverse, length_drop, length_fmap. lia.
    + rewrite head_reverse.
      rewrite <- (take_drop 5 (entry_of <$> calls)) at 2.
      rewrite last_app.
      destruct (last (drop 5 (entry_of <$> calls))) eqn:Hlast; [done|].
      apply last_None in Hlast. apply (f_equal length) in Hlast.
      rewrite length_drop, length_fmap in Hlast. cbn in Hlast. lia.
Qed.

Lemma activity_log_capacity_witness :
  let calls :=
    (λ n : nat, {| call_agentId := "system"; call_action := "tick";
                   call_details := @None unit; call_nowMs := Z.of_nat n;
                   call_nowIso := "t" |}) <$> seq 0 105 in
  (length (activityLog (foldl addActivityCall initial calls)) ≤ 100)%nat
  ∧ activityLog (foldl addActivityCall initial calls)
    = take 100 (reverse (entry_of <$> calls) ++ activityLog initial)
  ∧ (activityLog (Any := unit) initial = [] → length calls = 105%nat →
     length (activityLog (foldl addActivityCall initial calls)) = 100%nat
     ∧ head (activityLog (foldl addActivityCall initial calls))
       = last (entry_of <$> calls)
     ∧ activityLog (foldl addActivityCall initial calls)
       = reverse (drop 5 (entry_of <$> calls))).
Proof.
  intros calls. apply (activity_log_capacity initial calls). apply reachable_initial.
Defined.

(** C6, as the code has it. Along every sequence of store actions that does
    not clear the approvals, a request keeps its place and all its fields but
    the status; its status changes only through [resolveApprovalRequest] with
    its identifier, and it is what the last such call says, approved or
    rejected, whatever the status was before: an approved request becomes
    rejected and a rejected one approved when resolved again. A request that
    is approved or rejected never becomes pending again. *)
Theorem approval_never_back_to_pending {Any} (acts : list (Action Any)) :
  ∀ (state : AgentState Any) i req,
  ClearApprovals ∉ acts →
  pendingApprovals state !! i = Some req →
  ∃ req',
    pendingApprovals (run state acts) !! i = Some req'
    ∧ req' = match last_resolution (ApprovalRequest.id req) acts with
             | Some approved => resolved approved req
             | None => req
             end
    ∧ (req' = req
       ∨ ∃ approved,
           ResolveApprovalRequest (ApprovalRequest.id req) approved ∈ acts
           ∧ req' = resolved approved req)
    ∧ (ApprovalRequest.status req ≠ ApprovalRequest.Pending →
       ApprovalRequest.status req' ≠ ApprovalRequest.Pending).
Proof.
  induction acts as [|a acts IH]; intros state i req Hclear Hreq.
  - exists req. cbn. split; [done|]. split; [done|]. split; [by left|done].
  - apply not_elem_of_cons in Hclear as [Hne Hclear].
    destruct (approval_step_kept state a i req) as [req1 Hreq1]; [done..|].
    assert (req1 = match resolution_by (ApprovalRequest.id req) a with
                   | Some approved => resolved approved req
                   | None => req
                   end
            ∧ ApprovalRequest.id req1 = ApprovalRequest.id req) as [Hstep Hid].
    { destruct a; cbn in Hreq1 |- *; try (split; congruence).
      - rewrite lookup_app_l in Hreq1 by (by eapply lookup_lt_Some).
        split; congruence.
      - rewrite list_lookup_fmap, Hreq in Hreq1. cbn in Hreq1.
        injection Hreq1 as <-.
        destruct (decide (ApprovalRequest.id req = requestId)) as [Heq|Hneq].
        + rewrite (bool_decide_eq_true_2 _ Heq).
          by rewrite bool_decide_eq_true_2 by done.
        + rewrite (bool_decide_eq_false_2 _ Hneq).
          by rewrite bool_decide_eq_false_2 by congruence. }
    destruct (IH (step state a) i req1 Hclear Hreq1)
      as (req' & Hreq' & Hlast & Hor & Hpend).
    exists req'. change (run state (a :: acts)) with (run (step state a) acts).
    split; [done|]. rewrite Hid in Hlast. cbn [last_resolution].
    assert (req' = match
                     match last_resolution (ApprovalRequest.id req) acts with
                     | Some approved => Some approved
                     | None => resolution_by (ApprovalRequest.id req) a
                     end
                   with
                   | Some approved => resolved approved req
                   | None => req
                   end) as Hexact.
    { rewrite Hlast, Hstep.
      destruct (last_resolution (ApprovalRequest.id req) acts) as [b|]; [|done].
      by destruct (resolution_by (ApprovalRequest.id req) a). }
    split; [exact Hexact|].
    assert (∀ b, resolution_by (ApprovalRequest.id req) a = Some b →
                 a = ResolveApprovalRequest (ApprovalRequest.id req) b) as Hby.
    { intros b Hb. destruct a; try discriminate. cbn in Hb.
      case_bool_decide; [|discriminate]. injection Hb as ->. by subst. }
    split.
    + rewrite Hid in Hor. destruct Hor as [->|(b & Hin & ->)].
      * rewrite Hstep.
        destruct (resolution_by (ApprovalRequest.id req) a) as [b|] eqn:Hb;
          [|by left].
        right. exists b. split; [|done]. apply elem_of_cons. left.
        symmetry. by apply Hby.
      * right. exists b. split; [apply elem_of_cons; by right|].
        rewrite Hstep.
        by destruct (resolution_by (ApprovalRequest.id req) a).
    + intros Hnp. apply Hpend. rewrite Hstep.
      destruct (resolution_by (ApprovalRequest.id req) a) as [[|]|]; done.
Qed.

Lemma approval_never_back_to_pending_witness :
  ∃ req',
    pendingApprovals
      (run (Any := unit)
         (run initial [AddApprovalRequest sampleRequest 7 "t";
                       ResolveApprovalRequest "approval_7" true])
         [ResolveApprovalRequest "approval_7" false]) !! 0%nat = Some req'
    ∧ req' = {| ApprovalRequest.id := "approval_7";
                ApprovalRequest.actionType := "deployment";
                ApprovalRequest.description := "deploy";
                ApprovalRequest.riskLevel := ApprovalRequest.High;
                ApprovalRequest.estimatedCost := None;
                ApprovalRequest.estimatedDuration := None;
                ApprovalRequest.agentInvolved := None;
                ApprovalRequest.status := ApprovalRequest.Rejected;
                ApprovalRequest.timestamp := "t" |}
    ∧ (req' = {| ApprovalRequest.id := "approval_7";
                 ApprovalRequest.actionType := "deployment";
                 ApprovalRequest.description := "deploy";
                 ApprovalRequest.riskLevel := ApprovalRequest.High;
                 ApprovalRequest.estimatedCost := None;
                 ApprovalRequest.estimatedDuration := None;
                 ApprovalRequest.agentInvolved := None;
                 ApprovalRequest.status := ApprovalRequest.Approved;
                 ApprovalRequest.timestamp := "t" |}
       ∨ ∃ approved,
           ResolveApprovalRequest (Any := unit) "approval_7" approved
             ∈ [ResolveApprovalRequest "approval_7" false]
           ∧ req' = resolved approved
                      {| ApprovalRequest.id := "approval_7";
                         ApprovalRequest.actionType := "deployment";
                         ApprovalRequest.description := "deploy";
                         ApprovalRequest.riskLevel := ApprovalRequest.High;
                         ApprovalRequest.estimatedCost := None;
                         ApprovalRequest.estimatedDuration := None;
                         ApprovalRequest.agentInvolved := None;
                         ApprovalRequest.status := ApprovalRequest.Approved;
                         ApprovalRequest.timestamp := "t" |})
    ∧ (ApprovalRequest.Approved ≠ ApprovalRequest.Pending →
       ApprovalRequest.status req' ≠ ApprovalRequest.Pending).
Proof.
  apply (approval_never_back_to_pending (Any := unit)
           [ResolveApprovalRequest "approval_7" false]
           (run initial [AddApprovalRequest sampleRequest 7 "t";
                         ResolveApprovalRequest "approval_7" true]) 0%nat
           {| ApprovalRequest.id := "approval_7";
              ApprovalRequest.actionType := "deployment";
              ApprovalRequest.description := "deploy";
              ApprovalRequest.riskLevel := ApprovalRequest.High;
              ApprovalRequest.estimatedCost := None;
              ApprovalRequest.estimatedDuration := None;
              ApprovalRequest.agentInvolved := None;
              ApprovalRequest.status := ApprovalRequest.Approved;
              ApprovalRequest.timestamp := "t" |}).
  - intros Hin. apply list_elem_of_singleton in Hin. discriminate.
  - reflexivity.
Defined.

(** C6, as the claim states it, fails: resolving an approved request again
    with [approved = false] turns it into a rejected one. *)
Lemma approved_request_becomes_rejected :
  let s1 := run (Any := unit) initial
              [AddApprovalRequest sampleRequest 7 "t";
               ResolveApprovalRequest "approval_7" true] in
  let s2 := step s1 (ResolveApprovalRequest "approval_7" false) in
  reachable s1
  ∧ ApprovalRequest.status <$> pendingApprovals s1 !! 0%nat
    = Some ApprovalRequest.Approved
  ∧ ApprovalRequest.status <$> pendingApprovals s2 !! 0%nat
    = Some ApprovalRequest.Rejected.
Proof.
  cbn zeta. split; [|split; reflexivity].
  unfold run. cbn [foldl]. do 2 apply reachable_step. apply reachable_initial.
Qed.

(** C7. Resolving an identifier that no request of the list carries leaves
    the store, and so the list of approvals, as it was: the call returns and
    adds no record. *)
Theorem resolve_unknown_request_noop {Any} (state : AgentState Any) requestId approved :
  (∀ req, req ∈ pendingApprovals state → ApprovalRequest.id req ≠ requestId) →
  resolveApprovalRequest requestId approved state = state
  ∧ pendingApprovals (resolveApprovalRequest requestId approved state)
    = pendingApprovals state.
Proof.
  intros Hno.
  assert (resolveApprovalRequest requestId approved state = state) as ->; [|done].
  unfold resolveApprovalRequest, with_pendingApprovals.
  rewrite (fmap_unmatched
             (λ req, bool_decide (ApprovalRequest.id req = requestId))
             (resolved approved)).
  - apply state_eta.
  - intros req Hin. apply bool_decide_eq_false. by apply Hno.
Qed.

Lemma resolve_unknown_request_noop_witness :
  let state := run (Any := unit) initial [AddApprovalRequest sampleRequest 7 "t"] in
  resolveApprovalRequest "approval_8" true state = state
  ∧ pendingApprovals (resolveApprovalRequest "approval_8" true state)
    = pendingApprovals state.
Proof.
  intros state. apply (resolve_unknown_request_noop state "approval_8" true).
  intros req Hin. apply list_elem_of_singleton in Hin as ->. discriminate.
Defined.

(** C8. [updateAgentStatus] keeps the agents in place; of an agent with the
    given identifier it replaces the status, the current task and the error
    by the arguments and sets the progress to 100 when the status is
    completed and to 0 otherwise, keeping its identifier, name and
    last-completed stamp; every other agent, and every other part of the
    store, is unchanged. *)
Theorem updateAgentStatus_frame {Any} (state : AgentState Any)
    agentId status task error i agent :
  agents state !! i = Some agent →
  length (agents (updateAgentStatus agentId status task error state))
  = length (agents state)
  ∧ agents (updateAgentStatus agentId status task error state) !! i
    = Some (if bool_decide (Agent.id agent = agentId) then
              {| Agent.id := Agent.id agent;
                 Agent.name := Agent.name agent;
                 Agent.status := status;
                 Agent.currentTask := task;
                 Agent.lastCompleted := Agent.lastCompleted agent;
                 Agent.error := error;
                 Agent.progress :=
                   Some (match status with Agent.Completed => 100 | _ => 0 end) |}
            else agent)
  ∧ workflows (updateAgentStatus agentId status task error state) = workflows state
  ∧ activeWorkflow (updateAgentStatus agentId status task error state)
    = activeWorkflow state
  ∧ pendingApprovals (updateAgentStatus agentId status task error state)
    = pendingApprovals state
  ∧ isExecuting (updateAgentStatus agentId status task error state)
    = isExecuting state
  ∧ currentTask (updateAgentStatus agentId status task error state)
    = currentTask state
  ∧ activityLog (updateAgentStatus agentId status task error state)
    = activityLog state.
Proof.
  intros Hagent. cbn. rewrite length_fmap, list_lookup_fmap, Hagent. cbn.
  repeat split. by destruct status.
Qed.

Lemma updateAgentStatus_frame_witness :
  let state := updateAgentStatus (Any := unit) "repository_analyzer"
                 Agent.Completed None None initial in
  agents state
  = {| Agent.id := "repository_analyzer"; Agent.name := "Repository Analyzer";
       Agent.status := Agent.Completed; Agent.currentTask := None;
       Agent.lastCompleted := None; Agent.error := None;
       Agent.progress := Some 100 |} :: drop 1 initialAgents
  ∧ length (agents state) = length (agents (Any := unit) initial)
  ∧ agents state !! 0%nat
    = Some {| Agent.id := "repository_analyzer"; Agent.name := "Repository Analyzer";
              Agent.status := Agent.Completed; Agent.currentTask := None;
              Agent.lastCompleted := None; Agent.error := None;
              Agent.progress := Some 100 |}.
Proof.
  intros state. split; [reflexivity|].
  pose proof (updateAgentStatus_frame (Any := unit) initial "repository_analyzer"
                Agent.Completed None None 0%nat
                (initialAgent "repository_analyzer" "Repository Analyzer")
                eq_refl) as (Hlen & Hlook & _).
  split; [exact Hlen|exact Hlook].
Defined.

(** C9, as the code has it. Over every sequence of store actions in which
    each [startWorkflow] gets at least one step and each
    [updateWorkflowStatus] to running names a step of every workflow that
    carries the given identifier, a running workflow, in the list or active,
    has its current step among its steps; the store checks neither
    condition. *)
Theorem running_workflow_step_member {Any} (acts : list (Action Any)) :
  ∀ (state : AgentState Any),
  workflows_ok state →
  checked_run state acts →
  ∀ w, (w ∈ workflows (run state acts) ∨ activeWorkflow (run state acts) = Some w) →
       Workflow.status w = Workflow.Running →
       ∃ c, Workflow.currentStep w = Some c ∧ c ∈ Workflow.steps w.
Proof.
  induction acts as [|a acts IH]; intros state Hok Hchk w Hw Hrun.
  - destruct Hok as [Hall Hact]. destruct Hw as [Hw|Hw]; [by apply Hall|by apply Hact].
  - destruct Hchk as [Ha Hchk].
    apply (IH (step state a)); [by apply workflows_ok_step|done..].
Qed.

Lemma running_workflow_step_member_witness :
  ∃ c, Some "extract"%string = Some c
       ∧ c ∈ ["analyze"; "extract"; "design"]%string.
Proof.
  pose proof (running_workflow_step_member (Any := unit)
    [StartWorkflow "full_analysis" ["analyze"; "extract"; "design"]%string 5 "t0";
     UpdateWorkflowStatus "workflow_5" Workflow.Running (Some "extract"%string) None "t1"]
    initial) as H.
  apply (H
    ltac:(split; [intros w Hw; by apply elem_of_nil in Hw|intros w Hw; discriminate])
    ltac:(split; [discriminate|split; [|exact I]];
          intros w [Hw|Hw] _;
          [apply list_elem_of_singleton in Hw as ->|injection Hw as <-];
          (exists "extract"%string; split; [reflexivity|];
           apply elem_of_cons; right; apply elem_of_cons; by left))
    {| Workflow.id := "workflow_5"; Workflow.type := "full_analysis";
       Workflow.status := Workflow.Running; Workflow.startTime := Some "t0"%string;
       Workflow.endTime := None;
       Workflow.steps := ["analyze"; "extract"; "design"]%string;
       Workflow.currentStep := Some "extract"%string;
       Workflow.results := None; Workflow.error := None |}).
  - left. apply list_elem_of_singleton. reflexivity.
  - reflexivity.
Defined.

(** C9, as the claim states it, fails twice: a workflow started with no steps
    is running without a current step, and [updateWorkflowStatus] sets a
    running workflow to a step that is not in its list. *)
Lemma running_workflow_step_not_member :
  let s1 := step (Any := unit) initial (StartWorkflow "full_analysis" [] 5 "t0") in
  let s2 := run (Any := unit) initial
              [StartWorkflow "full_analysis" ["analyze"; "extract"]%string 5 "t0";
               UpdateWorkflowStatus "workflow_5" Workflow.Running
                 (Some "deploy"%string) None "t1"] in
  (∃ w, workflows s1 = [w]
        ∧ Workflow.status w = Workflow.Running
        ∧ Workflow.steps w = []
        ∧ Workflow.currentStep w = None)
  ∧ (∃ w, workflows s2 = [w]
          ∧ Workflow.status w = Workflow.Running
          ∧ Workflow.steps w = ["analyze"; "extract"]%string
          ∧ Workflow.currentStep w = Some "deploy"%string
          ∧ "deploy"%string ∉ Workflow.steps w).
Proof.
  cbn zeta. split.
  - eexists. repeat split.
  - eexists. split; [reflexivity|]. repeat split.
    cbn. intros Hin.
    repeat (apply elem_of_cons in Hin as [Hin|Hin]; [discriminate|]).
    by apply elem_of_nil in Hin.
Qed.

(** C10. For an identifier that no agent of the list carries,
    [updateAgentStatus] and [updateAgentProgress] return the store as it
    was: no agent is added and the list of agents is unchanged. *)
Theorem update_unknown_agent_noop {Any} (state : AgentState Any)
    agentId status task error progress :
  (∀ agent, agent ∈ agents state → Agent.id agent ≠ agentId) →
  updateAgentStatus agentId status task error state = state
  ∧ updateAgentProgress agentId progress state = state
  ∧ agents (updateAgentStatus agentId status task error state) = agents state
  ∧ agents (updateAgentProgress agentId progress state) = agents state.
Proof.
  intros Hno.
  assert (updateAgentStatus agentId status task error state = state) as Hs.
  { unfold updateAgentStatus.
    rewrite (fmap_unmatched (λ agent, bool_decide (Agent.id agent = agentId))).
    - apply state_eta.
    - intros agent Hin. apply bool_decide_eq_false. by apply Hno. }
  assert (updateAgentProgress agentId progress state = state) as Hp.
  { unfold updateAgentProgress.
    rewrite (fmap_unmatched (λ agent, bool_decide (Agent.id agent = agentId))).
    - apply state_eta.
    - intros agent Hin. apply bool_decide_eq_false. by apply Hno. }
  by rewrite Hs, Hp.
Qed.

Lemma update_unknown_agent_noop_witness :
  updateAgentStatus (Any := unit) "deployer" Agent.Running (Some "x"%string) None initial
  = initial
  ∧ updateAgentProgress (Any := unit) "deployer" 40 initial = initial
  ∧ agents (updateAgentStatus (Any := unit) "deployer" Agent.Running
              (Some "x"%string) None initial) = agents (Any := unit) initial
  ∧ agents (updateAgentProgress (Any := unit) "deployer" 40 initial)
    = agents (Any := unit) initial.
Proof.
  apply (update_unknown_agent_noop (Any := unit) initial "deployer" Agent.Running
           (Some "x"%string) None 40).
  intros agent Hin. cbn in Hin.
  repeat (apply elem_of_cons in Hin as [->|Hin]; [discriminate|]).
  by apply elem_of_nil in Hin.
Defined.

End StoreSpec.

(* ====================================================================== *)
(** * Properties of the socket manager *)
(* ====================================================================== *)

Module WsSpec.
Import Ws.

Section Facts.
Context {Data : Type}.
Implicit Types (m : WebSocketManager Data) (a : Trigger Data)
  (acts : list (Trigger Data)) (config : Config).

Lemma processMessageQueue_loop_connected fuel : ∀ m,
  isConnected m = true →
  (length (messageQueue m) ≤ fuel)%nat →
  processMessageQueue_loop fuel m
  = {| socket := socket m; reconnectAttempts := reconnectAttempts m;
       isConnecting := isConnecting m; messageQueue := [];
       emitted := emitted m ++ (wire <$> messageQueue m) |}.
Proof.
  induction fuel as [|fuel IH]; intros [sk ra ic q em] Hconn Hlen; cbn in *.
  - destruct q; [|cbn in Hlen; lia]. by rewrite app_nil_r.
  - destruct q as [|message rest]; [by rewrite app_nil_r|].
    unfold isConnected in Hconn |- *. cbn in Hconn |- *. rewrite Hconn.
    rewrite IH; cbn in *; [|done|lia].
    by rewrite <- app_assoc.
Qed.

Lemma processMessageQueue_connected m :
  isConnected m = true →
  processMessageQueue m
  = {| socket := socket m; reconnectAttempts := reconnectAttempts m;
       isConnecting := isConnecting m; messageQueue := [];
       emitted := emitted m ++ (wire <$> messageQueue m) |}.
Proof. intros Hconn. by apply processMessageQueue_loop_connected. Qed.

Lemma processMessageQueue_disconnected m :
  isConnected m = false → processMessageQueue m = m.
Proof.
  intros Hc. unfold processMessageQueue.
  destruct (messageQueue m) eqn:Hq; cbn; [done|]. by rewrite Hq, Hc.
Qed.

(** The connect event on a socket that has not connected yet. *)
Lemma fire_connect_awaiting config m sk :
  socket m = Some sk →
  onceConnect sk = true →
  fire config SocketConnect m
  = {| socket := Some {| connected := true; onceConnect := false;
                         onceConnectError := onceConnectError sk |};
       reconnectAttempts := 0; isConnecting := false; messageQueue := [];
       emitted := emitted m ++ (wire <$> messageQueue m) |}.
Proof.
  intros Hsk Honce. unfold fire. rewrite Hsk, Honce.
  unfold once_connect. by rewrite processMessageQueue_connected.
Qed.

Lemma fire_connect_listener_gone config m sk :
  socket m = Some sk →
  onceConnect sk = false →
  fire config SocketConnect m
  = {| socket := Some {| connected := true; onceConnect := false;
                         onceConnectError := onceConnectError sk |};
       reconnectAttempts := 0; isConnecting := isConnecting m;
       messageQueue := messageQueue m; emitted := emitted m |}.
Proof. intros Hsk Honce. unfold fire. by rewrite Hsk, Honce. Qed.

Lemma inv_initial config : inv config (new_manager (Data := Data)).
Proof. split; [|split]; cbn; done. Qed.

(** A socket fresh from [connect()] satisfies the invariant. *)
Lemma inv_fresh config ra (q : list (WebSocketMessage Data)) em :
  enableWebSocket config = true →
  inv config {| socket := Some fresh_socket; reconnectAttempts := ra;
                isConnecting := true; messageQueue := q; emitted := em |}.
Proof.
  intros Hcfg. split; [|split]; cbn.
  - intros _. by exists fresh_socket.
  - intros _ sk [= <-]. done.
  - congruence.
Qed.

Lemma inv_step config m a : inv config m → inv config (handle config m a).
Proof.
  intros Hinv. pose proof Hinv as (Hconn & Hqueue & Hoff). unfold handle.
  destruct (enabled m a) eqn:Hen; [|done].
  destruct a.
  - (* connect() *)
    unfold fire, connect.
    destruct (isConnected m || isConnecting m) eqn:Hbusy; [done|].
    destruct (enableWebSocket config) eqn:Hcfg; cbn; [|done].
    by apply inv_fresh.
  - (* send() *)
    unfold fire, send. destruct (isConnected m) eqn:Hc; [done|].
    cbn [with_messageQueue isConnecting negb].
    destruct (isConnecting m) eqn:Hic; cbn [negb].
    + destruct (Hconn eq_refl) as (sk & Hsk & Hsk').
      split; [|split]; cbn; [|intros _ sk' Hsk''; congruence|done].
      intros _. by exists sk.
    + unfold connect. unfold isConnected in Hc |- *. cbn. rewrite Hc, Hic. cbn.
      destruct (enableWebSocket config) eqn:Hcfg; cbn; [by apply inv_fresh|].
      split; [|split]; cbn; [congruence| |by intros _; apply Hoff].
      intros _ sk Hsk. rewrite Hoff in Hsk; done.
  - (* disconnect() *)
    split; [|split]; cbn; done.
  - (* connect event *)
    cbn in Hen. destruct (socket m) as [sk|] eqn:Hsk; [|done].
    assert (enableWebSocket config = false → False) as Hon.
    { intros Hcfg. discriminate (Hoff Hcfg). }
    destruct (onceConnect sk) eqn:Honce.
    + rewrite (fire_connect_awaiting config m sk) by done.
      split; [|split]; cbn; done.
    + rewrite (fire_connect_listener_gone config m sk) by done.
      split; [|split]; cbn; [| |done].
      * intros Hic. destruct (Hconn Hic) as (sk' & Hsk' & _ & Honce').
        congruence.
      * intros Hq. destruct (Hqueue Hq sk eq_refl) as [_ Honce']. congruence.
  - (* connect_error event *)
    cbn in Hen. unfold fire. destruct (socket m) as [sk|] eqn:Hsk; [|done].
    assert (enableWebSocket config = false → False) as Hon.
    { intros Hcfg. discriminate (Hoff Hcfg). }
    assert (messageQueue m ≠ [] →
            ∀ sk', Some {| connected := connected sk; onceConnect := onceConnect sk;
                           onceConnectError := false |} = Some sk' →
                   awaiting_connect sk') as Hqueue'.
    { intros Hq sk' [= <-]. by destruct (Hqueue Hq sk eq_refl). }
    destruct (onceConnectError sk).
    + split; [|split]; cbn; done.
    + split; [|split]; cbn; [|done..].
      intros Hic. destruct (Hconn Hic) as (sk' & Hsk' & Hc' & Honce').
      eexists. split; [done|]. split; cbn; congruence.
  - (* disconnect event *)
    cbn in Hen. unfold isConnected in Hen. unfold fire.
    destruct (socket m) as [sk|] eqn:Hsk; [|done].
    assert (enableWebSocket config = false → False) as Hon.
    { intros Hcfg. discriminate (Hoff Hcfg). }
    assert (isConnecting m = false) as Hic.
    { destruct (isConnecting m); [|done].
      destruct (Hconn eq_refl) as (sk' & Hsk' & Hc' & _). congruence. }
    assert (messageQueue m = []) as Hq.
    { destruct (messageQueue m) eqn:Hq; [done|].
      destruct (Hqueue ltac:(done) sk eq_refl) as [Hc' _]. congruence. }
    unfold on_disconnect, connect, isConnected. cbn. rewrite Hic. cbn.
    case_bool_decide.
    + destruct (enableWebSocket config) eqn:Hcfg; cbn; [by apply inv_fresh|].
      by destruct Hon.
    + split; [|split]; cbn; [congruence|congruence|done].
  - (* reconnect_error event *)
    cbn in Hen. unfold fire. destruct (socket m) as [sk|] eqn:Hsk; [|done].
    destruct Hinv as (H1 & H2 & H3). split; [|split]; cbn; assumption.
  - (* connect event of a replaced socket *)
    unfold fire. destruct once; [|done].
    unfold once_connect.
    destruct (isConnected m) eqn:Hc.
    + rewrite processMessageQueue_connected by done.
      split; [|split]; cbn; done.
    + rewrite processMessageQueue_disconnected by done.
      split; [|split]; cbn; done.
  - (* connect_error event of a replaced socket *)
    unfold fire. destruct once; [|done].
    split; [|split]; cbn; done.
  - (* disconnect event of a replaced socket *)
    unfold fire, on_disconnect, connect. case_bool_decide; [|done].
    destruct (isConnected m || isConnecting m); [done|].
    destruct (enableWebSocket config) eqn:Hcfg; cbn; [|done].
    by apply inv_fresh.
  - (* reconnect_error event of a replaced socket *)
    done.
Qed.

Lemma inv_reachable config m : reachable_manager config m → inv config m.
Proof.
  induction 1 as [|m a _ IH]; [apply inv_initial|by apply inv_step].
Qed.

Lemma reachable_run config acts : ∀ m,
  reachable_manager config m → reachable_manager config (handle_all config m acts).
Proof.
  induction acts as [|a acts IH]; intros m Hm; [done|].
  apply IH. by apply reachable_handle.
Qed.

Lemma run_snoc config m acts a :
  handle_all config m (acts ++ [a]) = handle config (handle_all config m acts) a.
Proof. unfold handle_all. by rewrite foldl_app. Qed.

Lemma sends_of_snoc acts a : sends_of (acts ++ [a]) = sends_of acts ++ sends_of [a].
Proof. unfold sends_of. by rewrite omap_app. Qed.

(** While the socket is not connected, and short of the connect event, the
    manager transmits nothing and the queue grows by exactly the messages
    handed to [send]. *)
Lemma step_while_disconnected config m a :
  isConnected m = false →
  a ≠ SocketConnect →
  isConnected (handle config m a) = false
  ∧ messageQueue (handle config m a) = messageQueue m ++ sends_of [a]
  ∧ emitted (handle config m a) = emitted m.
Proof.
  intros Hc Hne. unfold handle.
  destruct (enabled m a) eqn:Hen.
  2:{ destruct a; cbn in *; rewrite ?app_nil_r; done. }
  destruct a; cbn [sends_of omap list_omap]; rewrite ?app_nil_r.
  - unfold fire, connect. rewrite Hc. cbn.
    destruct (isConnecting m); [done|].
    destruct (enableWebSocket config); done.
  - unfold fire, send. rewrite Hc. cbn [with_messageQueue isConnecting negb].
    destruct (isConnecting m) eqn:Hic; cbn [negb]; [done|].
    unfold connect, isConnected in *. cbn. rewrite Hc, Hic. cbn.
    destruct (enableWebSocket config); done.
  - done.
  - done.
  - cbn in Hen. unfold fire. destruct (socket m) as [sk|] eqn:Hsk; [|done].
    apply negb_true_iff in Hen.
    destruct (onceConnectError sk); unfold isConnected; cbn; by rewrite ?Hen.
  - cbn in Hen. congruence.
  - cbn in Hen. unfold fire. destruct (socket m) as [sk|] eqn:Hsk; [|done].
    apply negb_true_iff in Hen.
    unfold isConnected. cbn. by rewrite Hsk, Hen.
  - unfold fire. destruct once; [|done].
    unfold once_connect. by rewrite processMessageQueue_disconnected.
  - unfold fire. by destruct once.
  - unfold fire, on_disconnect, connect. rewrite Hc. cbn.
    case_bool_decide; [|done].
    destruct (isConnecting m); [done|].
    destruct (enableWebSocket config); done.
  - done.
Qed.

Lemma run_while_disconnected config acts : ∀ m,
  isConnected m = false →
  SocketConnect ∉ acts →
  isConnected (handle_all config m acts) = false
  ∧ messageQueue (handle_all config m acts) = messageQueue m ++ sends_of acts
  ∧ emitted (handle_all config m acts) = emitted m.
Proof.
  induction acts as [|a acts IH] using rev_ind; intros m Hc Hno.
  - cbn. by rewrite app_nil_r.
  - apply not_elem_of_app in Hno as [Hno Ha].
    destruct (IH m Hc Hno) as (Hc' & Hq' & He').
    rewrite run_snoc, sends_of_snoc.
    destruct (step_while_disconnected config (handle_all config m acts) a Hc')
      as (Hc'' & Hq'' & He'').
    { intros ->. apply Ha, list_elem_of_singleton. done. }
    rewrite Hq'', He'', Hq', He', app_assoc. done.
Qed.

(** The connect event drains the whole queue, oldest message first. *)
Lemma connect_flushes_queue config m :
  inv config m →
  enabled m SocketConnect = true →
  isConnected (handle config m SocketConnect) = true
  ∧ messageQueue (handle config m SocketConnect) = []
  ∧ emitted (handle config m SocketConnect) = emitted m ++ (wire <$> messageQueue m).
Proof.
  intros (_ & Hqueue & _) Hen. unfold handle. rewrite Hen. cbn in Hen.
  destruct (socket m) as [sk|] eqn:Hsk; [|done].
  destruct (onceConnect sk) eqn:Honce.
  - by rewrite (fire_connect_awaiting config m sk).
  - rewrite (fire_connect_listener_gone config m sk) by done. cbn.
    destruct (messageQueue m) as [|message rest] eqn:Hq.
    + by rewrite app_nil_r.
    + destruct (Hqueue ltac:(done) sk eq_refl) as [_ Honce']. congruence.
Qed.

(** While connected the queue is empty. *)
Lemma connected_queue_empty config m :
  inv config m → isConnected m = true → messageQueue m = [].
Proof.
  intros (_ & Hqueue & _) Hc. unfold isConnected in Hc.
  destruct (socket m) as [sk|] eqn:Hsk; [|done].
  destruct (messageQueue m) eqn:Hq; [done|].
  destruct (Hqueue ltac:(done) sk eq_refl) as [Hc' _]. congruence.
Qed.

(** Whatever the calls and events: what went out followed by what waits is
    what was handed to [send], in call order. *)
Lemma outbound_history_step config m a :
  inv config m →
  (snd <$> emitted (handle config m a)) ++ messageQueue (handle config m a)
  = ((snd <$> emitted m) ++ messageQueue m) ++ sends_of [a].
Proof.
  intros Hinv.
  assert (a = SocketConnect ∨ a ≠ SocketConnect) as [->|Hne].
  { destruct a; (by left) || (by right). }
  { cbn. rewrite app_nil_r. unfold handle.
    destruct (enabled m SocketConnect) eqn:Hen; [|done].
    destruct (connect_flushes_queue config m Hinv Hen) as (_ & Hq & He).
    unfold handle in Hq, He. rewrite Hen in Hq, He. rewrite Hq, He, app_nil_r.
    rewrite fmap_app, <- list_fmap_compose. f_equal.
    rewrite <- (list_fmap_id (messageQueue m)) at 2.
    by apply list_fmap_ext. }
  destruct (isConnected m) eqn:Hc.
  - rewrite (connected_queue_empty config m Hinv Hc), !app_nil_r.
    pose proof (connected_queue_empty config m Hinv Hc) as Hq.
    unfold handle. destruct (enabled m a) eqn:Hen.
    2:{ destruct a; cbn in *; rewrite ?app_nil_r, ?Hq, ?app_nil_r; congruence. }
    destruct a; cbn [sends_of omap list_omap]; rewrite ?app_nil_r.
    + unfold fire, connect. rewrite Hc. cbn. by rewrite Hq, app_nil_r.
    + unfold fire, send. rewrite Hc. cbn. by rewrite Hq, fmap_app, app_nil_r.
    + cbn. by rewrite Hq, app_nil_r.
    + done.
    + unfold isConnected in Hc. cbn in Hen.
      destruct (socket m) as [sk|]; [|done]. destruct (connected sk); done.
    + unfold fire. unfold isConnected in Hc.
      destruct (socket m) as [sk|] eqn:Hsk; [|done].
      unfold on_disconnect, connect. case_bool_decide; cbn.
      * destruct (isConnecting m); cbn; [by rewrite Hq, app_nil_r|].
        destruct (enableWebSocket config); cbn; by rewrite Hq, app_nil_r.
      * by rewrite Hq, app_nil_r.
    + unfold isConnected in Hc. cbn in Hen.
      destruct (socket m) as [sk|]; [|done]. destruct (connected sk); done.
    + unfold fire. destruct once; [|cbn; by rewrite Hq, app_nil_r].
      unfold once_connect. rewrite processMessageQueue_connected by done.
      cbn. by rewrite Hq, !app_nil_r.
    + unfold fire. destruct once; cbn; by rewrite Hq, app_nil_r.
    + unfold fire, on_disconnect, connect. rewrite Hc. cbn.
      case_bool_decide; cbn; by rewrite Hq, app_nil_r.
    + cbn. by rewrite Hq, app_nil_r.
  - destruct (step_while_disconnected config m a Hc Hne) as (_ & -> & ->).
    by rewrite app_assoc.
Qed.

Lemma outbound_history config acts :
  (snd <$> emitted (handle_all config (new_manager (Data := Data)) acts))
    ++ messageQueue (handle_all config new_manager acts)
  = sends_of acts.
Proof.
  induction acts as [|a acts IH] using rev_ind; [done|].
  rewrite run_snoc, sends_of_snoc, <- IH.
  apply outbound_history_step, inv_reachable, reachable_run, reachable_new.
Qed.

End Facts.

Lemma sendCalls_run {Data} config (calls : list (SendCall Data)) : ∀ m,
  foldl (sendCall config) m calls
  = handle_all config m
      ((λ c, CallSend (call_event c) (call_data c) (call_now c)) <$> calls).
Proof. induction calls as [|c calls IH]; intros m; [done|]. cbn. by rewrite IH. Qed.

Lemma sends_of_calls {Data} (calls : list (SendCall Data)) :
  sends_of ((λ c, CallSend (call_event c) (call_data c) (call_now c)) <$> calls)
  = message_of <$> calls.
Proof. induction calls as [|c calls IH]; [done|]. cbn. by f_equal. Qed.

(** After a [send] on a manager that is not connected, with the socket
    enabled in the configuration, a socket is waiting for its connect
    event. *)
Lemma send_awaits_connect {Data} config (m : WebSocketManager Data) c :
  inv config m →
  enableWebSocket config = true →
  isConnected m = false →
  enabled (sendCall config m c) SocketConnect = true.
Proof.
  intros (Hconn & _ & _) Hcfg Hc. unfold sendCall, send. rewrite Hc.
  cbn [with_messageQueue isConnecting negb].
  destruct (isConnecting m) eqn:Hic; cbn [negb].
  - destruct (Hconn eq_refl) as (sk & Hsk & Hsk' & _). cbn. by rewrite Hsk, Hsk'.
  - unfold connect, isConnected in *. cbn. by rewrite Hc, Hic, Hcfg.
Qed.

(** C4. From every reachable_manager state in which the socket is not connected,
    a sequence of [send] calls appends its messages to the queue in call
    order and transmits nothing; when the socket then connects, the queue is
    drained: every message that was waiting goes out once, oldest first, and
    nothing else does. With the socket enabled in the configuration, a
    connection attempt is in flight after the first such call. *)
Theorem queued_messages_flushed_in_order {Data} config
    (m : WebSocketManager Data) (calls : list (SendCall Data)) :
  reachable_manager config m →
  isConnected m = false →
  isConnected (foldl (sendCall config) m calls) = false
  ∧ messageQueue (foldl (sendCall config) m calls)
    = messageQueue m ++ (message_of <$> calls)
  ∧ emitted (foldl (sendCall config) m calls) = emitted m
  ∧ (enableWebSocket config = true → calls ≠ [] →
     enabled (foldl (sendCall config) m calls) SocketConnect = true)
  ∧ (enabled (foldl (sendCall config) m calls) SocketConnect = true →
     isConnected (handle config (foldl (sendCall config) m calls) SocketConnect) = true
     ∧ messageQueue (handle config (foldl (sendCall config) m calls) SocketConnect) = []
     ∧ emitted (handle config (foldl (sendCall config) m calls) SocketConnect)
       = emitted m ++ (wire <$> messageQueue m ++ (message_of <$> calls))).
Proof.
  intros Hreach Hc.
  assert (SocketConnect
          ∉ (λ c, CallSend (call_event c) (call_data c) (call_now c)) <$> calls)
    as Hno.
  { intros Hin. apply list_elem_of_fmap in Hin as (c & Hc' & _). discriminate. }
  pose proof (run_while_disconnected config _ m Hc Hno) as (Hc1 & Hq1 & He1).
  rewrite <- sendCalls_run, sends_of_calls in *.
  split; [done|]. split; [done|]. split; [done|]. split.
  - intros Hcfg Hne.
    destruct calls as [|c calls _] using rev_ind; [done|].
    rewrite foldl_app. cbn [foldl].
    apply send_awaits_connect; [|done|].
    + rewrite sendCalls_run. by apply inv_reachable, reachable_run.
    + rewrite sendCalls_run. apply run_while_disconnected; [done|].
      intros Hin. apply list_elem_of_fmap in Hin as (c' & Hc' & _). discriminate.
  - intros Hen.
    destruct (connect_flushes_queue config (foldl (sendCall config) m calls))
      as (Hc2 & Hq2 & He2); [|done|].
    + rewrite sendCalls_run. by apply inv_reachable, reachable_run.
    + by rewrite Hc2, Hq2, He2, Hq1, He1.
Qed.

Lemma queued_messages_flushed_in_order_witness :
  isConnected (foldl (sendCall on) new_manager sampleCalls) = false
  ∧ messageQueue (foldl (sendCall on) new_manager sampleCalls)
    = [] ++ (message_of <$> sampleCalls)
  ∧ emitted (foldl (sendCall on) new_manager sampleCalls) = []
  ∧ (true = true → sampleCalls ≠ [] →
     enabled (foldl (sendCall on) new_manager sampleCalls) SocketConnect = true)
  ∧ (enabled (foldl (sendCall on) new_manager sampleCalls) SocketConnect = true →
     isConnected (handle on (foldl (sendCall on) new_manager sampleCalls) SocketConnect)
     = true
     ∧ messageQueue (handle on (foldl (sendCall on) new_manager sampleCalls) SocketConnect)
       = []
     ∧ emitted (handle on (foldl (sendCall on) new_manager sampleCalls) SocketConnect)
       = [] ++ (wire <$> [] ++ (message_of <$> sampleCalls))).
Proof.
  apply (queued_messages_flushed_in_order on new_manager sampleCalls).
  - apply reachable_new.
  - reflexivity.
Defined.

End WsSpec.

(* ====================================================================== *)
(** * More on the request client and its callers *)
(* ====================================================================== *)

Module ApiExtra.
Import Api ApiCalls.

Section Outcome.
Context {T : Type}.
Implicit Types (self rc : RetryConfig) (server : Server T).

(** The loop from attempt [n + 1] on, the attempts before it having failed
    with retryable errors: how it ends. *)
Lemma request_loop_outcome self rc server fuel : ∀ (n : nat) lastError,
  (n = 0%nat ∧ lastError = unknownError ∨ Z.of_nat n + 1 ≤ maxAttempts rc) →
  (Z.to_nat (maxAttempts rc) < fuel + n)%nat →
  retried_before self server (Z.of_nat n + 1) →
  ∃ run (k : nat),
    request_loop self rc server fuel (Z.of_nat n + 1) lastError
      (retried_attempts self 1 n) = Some run
    ∧ trace run = retry_trace self k
    ∧ Z.of_nat k ≤ Z.max 0 (maxAttempts rc)
    ∧ retried_before self server (Z.of_nat k)
    ∧ match outcome run with
      | Returned response =>
          (1 ≤ k)%nat ∧ server (Z.of_nat k) = Resolved response
      | Thrown error =>
          (k = 0%nat ∧ maxAttempts rc < 1 ∧ error = unknownError)
          ∨ ((1 ≤ k)%nat
             ∧ ∃ e, server (Z.of_nat k) = Rejected e
                    ∧ error = handleError self e
                    ∧ (Z.of_nat k = maxAttempts rc ∨ retryable error = false))
      end.
Proof.
  induction fuel as [|fuel IH]; intros n lastError Hn Hfuel Hbefore.
  - exfalso. lia.
  - cbn [request_loop]. case_bool_decide as Hle.
    + destruct (server (Z.of_nat n + 1)) as [response|e] eqn:Hsrv;
        cbn [client_request].
      * eexists _, (S n). split; [done|]. cbn [trace retry_trace outcome].
        split; [by rewrite (Z.add_comm 1)|]. split; [lia|].
        replace (Z.of_nat (S n)) with (Z.of_nat n + 1) by lia.
        split; [done|]. split; [lia|done].
      * destruct (bool_decide (Z.of_nat n + 1 = maxAttempts rc)
                  || negb (retryable (handleError self e))) eqn:Hstop.
        -- eexists _, (S n). split; [done|]. cbn [trace retry_trace outcome].
           split; [by rewrite (Z.add_comm 1)|]. split; [lia|].
           replace (Z.of_nat (S n)) with (Z.of_nat n + 1) by lia.
           split; [done|]. right. split; [lia|]. exists e.
           split; [done|]. split; [done|].
           apply orb_true_iff in Hstop as [Hlast|Hterm].
           ++ left. by apply bool_decide_eq_true in Hlast.
           ++ right. by apply negb_true_iff in Hterm.
        -- apply orb_false_iff in Hstop as [Hneq Hretry].
           apply bool_decide_eq_false in Hneq.
           apply negb_false_iff in Hretry.
           rewrite <- app_assoc. cbn [app].
           replace (retried_attempts self 1 n
                      ++ [EvRequest (Z.of_nat n + 1);
                          EvSleep (calculateDelay self (Z.of_nat n + 1))])
             with (retried_attempts self 1 (S n)).
           2:{ rewrite ApiSpec.retried_attempts_snoc. by rewrite (Z.add_comm 1). }
           replace (Z.of_nat n + 1 + 1) with (Z.of_nat (S n) + 1) by lia.
           apply IH; [right; lia|lia|].
           intros i Hi. destruct (decide (i = Z.of_nat n + 1)) as [->|Hne].
           ++ by exists e.
           ++ apply Hbefore. lia.
    + destruct Hn as [[-> ->]|Hn]; [|lia].
      eexists _, 0%nat. split; [done|]. cbn [trace retry_trace outcome].
      split; [done|]. split; [lia|]. split; [intros i Hi; lia|].
      left. split; [done|]. split; [lia|done].
Qed.

Lemma request_outcome self custom server :
  ∃ run (k : nat),
    request self custom server = Some run
    ∧ trace run = retry_trace self k
    ∧ Z.of_nat k ≤ Z.max 0 (maxAttempts (spread self custom))
    ∧ retried_before self server (Z.of_nat k)
    ∧ match outcome run with
      | Returned response =>
          (1 ≤ k)%nat ∧ server (Z.of_nat k) = Resolved response
      | Thrown error =>
          (k = 0%nat ∧ maxAttempts (spread self custom) < 1 ∧ error = unknownError)
          ∨ ((1 ≤ k)%nat
             ∧ ∃ e, server (Z.of_nat k) = Rejected e
                    ∧ error = handleError self e
                    ∧ (Z.of_nat k = maxAttempts (spread self custom)
                       ∨ retryable error = false))
      end.
Proof.
  unfold request.
  apply (request_loop_outcome self _ server _ 0%nat unknownError).
  - by left.
  - lia.
  - intros i Hi. lia.
Qed.

Lemma spread_noOverride self : spread self noOverride = self.
Proof. by destruct self. Qed.

End Outcome.

(** X1. Whatever the configuration, the override and the backend do,
    [request] ends, and what it did is [retry_trace self k] for some [k] of
    at most [maxAttempts] (0 when [maxAttempts] is below 1): the attempts 1
    to [k] in order, with exactly one sleep of [calculateDelay self i]
    between attempt [i] and attempt [i + 1] and no sleep before the first or
    after the last attempt. So there are [k] attempts, one sleep fewer than
    attempts, and no sleep is longer than [maxDelay]. *)
Theorem request_attempts_bounded {T} self custom (server : Server T) :
  ∃ run (k : nat),
    request self custom server = Some run
    ∧ trace run = retry_trace self k
    ∧ Z.of_nat k ≤ Z.max 0 (maxAttempts (spread self custom))
    ∧ requests_of (trace run) = (λ i : nat, 1 + Z.of_nat i) <$> seq 0 k
    ∧ sleeps_of (trace run)
      = (λ i : nat, calculateDelay self (1 + Z.of_nat i)) <$> seq 0 (pred k)
    ∧ Z.of_nat (attempts_of (trace run))
      ≤ Z.max 0 (maxAttempts (spread self custom))
    ∧ length (sleeps_of (trace run)) = pred (attempts_of (trace run))
    ∧ Forall (λ ms, ms ≤ maxDelay self) (sleeps_of (trace run)).
Proof.
  destruct (request_outcome self custom server) as (run & k & Hrun & Htr & Hk & _).
  exists run, k. split; [done|]. split; [done|]. split; [done|].
  assert (requests_of (retry_trace self k)
          = (λ i : nat, 1 + Z.of_nat i) <$> seq 0 k) as Hreqs.
  { destruct k as [|j]; [done|]. unfold retry_trace, requests_of.
    rewrite omap_app. fold (requests_of (retried_attempts self 1 j)).
    rewrite ApiSpec.requests_of_retried. cbn [omap list_omap app].
    by rewrite seq_S, fmap_app. }
  assert (sleeps_of (retry_trace self k)
          = (λ i : nat, calculateDelay self (1 + Z.of_nat i)) <$> seq 0 (pred k))
    as Hsleeps.
  { destruct k as [|j]; [done|]. apply ApiSpec.sleeps_of_retry_trace. }
  rewrite Htr. split; [done|]. split; [done|].
  rewrite ApiSpec.attempts_of_retry_trace. split; [done|].
  rewrite Hsleeps, length_fmap, length_seq. split; [done|].
  apply Forall_fmap, Forall_forall. intros i _. cbn.
  unfold calculateDelay. lia.
Qed.

(** X2. With [maxAttempts] below 1 the loop body never runs: [request] calls
    the backend not at all and throws the error it starts with, with message
    "Unknown error" and not retryable. *)
Theorem request_without_attempts {T} self custom (server : Server T) :
  maxAttempts (spread self custom) < 1 →
  request self custom server
  = Some {| outcome := Thrown unknownError; trace := [] |}.
Proof.
  intros Hm. unfold request. cbn [request_loop].
  by rewrite bool_decide_eq_false_2 by lia.
Qed.

Lemma request_without_attempts_witness :
  request (T := string) (constructor (config None))
    {| maxAttempts_opt := Some 0; baseDelay_opt := None; maxDelay_opt := None;
       backoffFactor_opt := None; retryableErrors_opt := None |}
    (λ _, Resolved "ok"%string)
  = Some {| outcome := Thrown unknownError; trace := [] |}.
Proof.
  apply (request_without_attempts (constructor (config None))
           {| maxAttempts_opt := Some 0; baseDelay_opt := None; maxDelay_opt := None;
              backoffFactor_opt := None; retryableErrors_opt := None |}
           (λ _, Resolved "ok"%string)).
  cbn. lia.
Defined.

(** X3. When every attempt up to [maxAttempts] fails with a retryable error,
    [request] gives up after exactly [maxAttempts] attempts and throws the
    classified error of the last one; it does not sleep after the last
    attempt. *)
Theorem request_exhausted {T} self custom (server : Server T) e :
  1 ≤ maxAttempts (spread self custom) →
  retried_before self server (maxAttempts (spread self custom)) →
  server (maxAttempts (spread self custom)) = Rejected e →
  ∃ run,
    request self custom server = Some run
    ∧ outcome run = Thrown (handleError self e)
    ∧ Z.of_nat (attempts_of (trace run)) = maxAttempts (spread self custom)
    ∧ Z.of_nat (length (sleeps_of (trace run)))
      = maxAttempts (spread self custom) - 1
    ∧ last (trace run) = Some (EvRequest (maxAttempts (spread self custom))).
Proof.
  intros Hm Hbefore Hsrv.
  set (m := maxAttempts (spread self custom)) in *.
  pose proof (ApiSpec.request_reaches self custom server (Z.to_nat m)) as Hrun.
  rewrite Z2Nat.id in Hrun by lia. rewrite Hsrv in Hrun.
  eexists. split; [apply Hrun; [lia|fold m; lia|done|by left]|].
  cbn [outcome trace]. split; [done|].
  rewrite ApiSpec.attempts_of_retry_trace.
  destruct (Z.to_nat m) as [|j] eqn:Hj; [lia|].
  rewrite ApiSpec.sleeps_of_retry_trace, length_fmap, length_seq.
  split; [lia|]. split; [lia|].
  cbn [retry_trace]. rewrite last_snoc. do 2 f_equal. lia.
Qed.

Lemma request_exhausted_witness :
  ∃ run,
    request (T := string) (constructor (config None)) noOverride
      (λ _, Rejected ErrNoResponse) = Some run
    ∧ outcome run = Thrown (handleError (constructor (config None)) ErrNoResponse)
    ∧ Z.of_nat (attempts_of (trace run)) = 3
    ∧ Z.of_nat (length (sleeps_of (trace run))) = 3 - 1
    ∧ last (trace run) = Some (EvRequest 3).
Proof.
  apply (request_exhausted (T := string) (constructor (config None)) noOverride
           (λ _, Rejected ErrNoResponse) ErrNoResponse).
  - cbn. lia.
  - intros i Hi. exists ErrNoResponse. split; reflexivity.
  - reflexivity.
Defined.

(** X4. [request] returns a response exactly when some attempt within
    [maxAttempts] is answered with it and every attempt before that one
    failed with a retryable error. *)
Theorem request_returns_iff {T} self custom (server : Server T) response :
  (∃ tr, request self custom server
         = Some {| outcome := Returned response; trace := tr |})
  ↔ ∃ k, 1 ≤ k ≤ maxAttempts (spread self custom)
         ∧ server k = Resolved response
         ∧ retried_before self server k.
Proof.
  split.
  - intros [tr Hrun].
    destruct (request_outcome self custom server)
      as (run & k & Hrun' & _ & Hk & Hbefore & Hout).
    rewrite Hrun in Hrun'. injection Hrun' as <-. cbn in Hout.
    destruct Hout as [Hk1 Hsrv]. exists (Z.of_nat k). split; [lia|done].
  - intros (k & Hk & Hsrv & Hbefore).
    pose proof (ApiSpec.request_reaches self custom server (Z.to_nat k)) as Hrun.
    rewrite Z2Nat.id in Hrun by lia. rewrite Hsrv in Hrun.
    eexists. apply Hrun; [lia|lia|done].
Qed.

(** X5. Of a per-call override [request] reads [maxAttempts] only: two
    overrides that agree on it give the same run, whatever delays, factor
    or retryable errors they ask for. *)
Theorem request_override_maxAttempts_only {T} self custom custom' (server : Server T) :
  maxAttempts_opt custom = maxAttempts_opt custom' →
  request self custom server = request self custom' server.
Proof.
  intros Hm. unfold request. cbn zeta.
  assert (maxAttempts (spread self custom) = maxAttempts (spread self custom'))
    as Heq by (cbn; by rewrite Hm).
  rewrite Heq. by apply ApiSpec.request_loop_maxAttempts_only.
Qed.

Lemma request_override_maxAttempts_only_witness :
  request (T := string) (constructor (config None))
    {| maxAttempts_opt := Some 2; baseDelay_opt := Some 5; maxDelay_opt := Some 10;
       backoffFactor_opt := Some 3; retryableErrors_opt := Some [] |}
    (λ _, Rejected (ErrResponse 503 None))
  = request (constructor (config None))
      {| maxAttempts_opt := Some 2; baseDelay_opt := None; maxDelay_opt := None;
         backoffFactor_opt := None; retryableErrors_opt := None |}
      (λ _, Rejected (ErrResponse 503 None)).
Proof.
  apply (request_override_maxAttempts_only (T := string) (constructor (config None))
           {| maxAttempts_opt := Some 2; baseDelay_opt := Some 5;
              maxDelay_opt := Some 10; backoffFactor_opt := Some 3;
              retryableErrors_opt := Some [] |}
           {| maxAttempts_opt := Some 2; baseDelay_opt := None; maxDelay_opt := None;
              backoffFactor_opt := None; retryableErrors_opt := None |}
           (λ _, Rejected (ErrResponse 503 None))).
  reflexivity.
Defined.

(** X6. [healthCheck] never throws; it answers [true] exactly when some
    attempt within the [maxAttempts] of the instance succeeds after retryable
    failures. The [maxAttempts: 2] it puts into the request configuration
    does not reach [request]: the bound is that of the instance. *)
Theorem healthCheck_uses_instance_attempts {T} self (server : Server T) :
  ∃ ok tr,
    healthCheck (D := unit) self server = Some (ok, tr)
    ∧ Z.of_nat (attempts_of tr) ≤ Z.max 0 (maxAttempts self)
    ∧ (ok = true
       ↔ ∃ k response, 1 ≤ k ≤ maxAttempts self
                       ∧ server k = Resolved response
                       ∧ retried_before self server k).
Proof.
  unfold healthCheck, get, request_call. cbn [default].
  destruct (request_outcome self noOverride server)
    as (run & k & Hrun & Htr & Hk & Hbefore & Hout).
  rewrite spread_noOverride in Hk, Hout. rewrite Hrun.
  destruct run as [[response|error] tr]; cbn [outcome trace] in *.
  - exists true, tr. split; [done|]. subst tr.
    rewrite ApiSpec.attempts_of_retry_trace. split; [done|].
    split; [|done]. intros _. destruct Hout as [Hk1 Hsrv].
    exists (Z.of_nat k), response. split; [lia|done].
  - exists false, tr. split; [done|]. subst tr.
    rewrite ApiSpec.attempts_of_retry_trace. split; [done|].
    split; [done|]. intros (k' & response & Hk' & Hsrv & Hbefore'). exfalso.
    assert (∃ tr', request self noOverride server
                   = Some {| outcome := Returned response; trace := tr' |})
      as [tr' Hret].
    { apply request_returns_iff. exists k'. by rewrite spread_noOverride. }
    congruence.
Qed.

(** X7. An error raised before any request was made is classified retryable
    by the instance exactly when its code is ECONNABORTED or NETWORK_ERROR;
    without a code it is terminal. *)
Theorem setup_error_retryable_iff cfg msg code :
  retryable (handleError (constructor cfg) (ErrSetup msg code)) = true
  ↔ code = Some "ECONNABORTED"%string ∨ code = Some "NETWORK_ERROR"%string.
Proof.
  cbn [handleError retryable]. unfold isRetryableError, falsy.
  destruct code as [c|]; cbn [fmap option_fmap option_map].
  2:{ split; [done|]. intros [|]; done. }
  unfold truthy_string. rewrite negb_involutive.
  case_bool_decide as Hempty.
  - subst c. split; [done|]. intros [|]; done.
  - cbn [constructor retryableErrors]. rewrite bool_decide_eq_true.
    rewrite !elem_of_cons, elem_of_nil. split.
    + intros [H|[H|[H|[H|[H|[H|[H|[H|[]]]]]]]]]; try discriminate;
        injection H as ->; tauto.
    + intros [[= ->]|[= ->]]; tauto.
Qed.

(** X8. For an error classified by the instance, the hook redirects to the
    login page exactly for status 401, shows the fixed permission text for
    403, and otherwise alerts the message, with the notice that a retry is
    under way exactly when the error is retryable: for a response, when its
    status is 408, 429, 500, 502, 503 or 504. *)
Theorem hook_handleError_classified cfg st data fallback :
  hook_handleError (handleError (constructor cfg) (ErrResponse st data)) fallback
  = if bool_decide (st = 401) then Redirect "/login"
    else if bool_decide (st = 403) then
      Alert "You do not have permission to perform this action."
    else
      let message :=
        default "An unexpected error occurred"%string
          (or_string
             (or_string
                (Some (message (handleError (constructor cfg) (ErrResponse st data))))
                fallback) None) in
      if bool_decide (st ∈ [408; 429; 500; 502; 503; 504])
      then Alert (message +:+ ". The system will retry automatically.")
      else Alert message.
Proof.
  unfold hook_handleError. cbn [handleError status retryable].
  repeat case_bool_decide; simplify_eq; try done.
  - by rewrite (proj2 (ApiSpec.constructor_retryable_status cfg st)).
  - destruct (isRetryableError _ _) eqn:Hr; [|done].
    by apply ApiSpec.constructor_retryable_status in Hr.
Qed.

Lemma default_falsy_iff (d : string) (v : option string) :
  d ≠ ""%string →
  truthy_string (default d v) = false ↔ v = Some ""%string.
Proof.
  intros Hd. unfold truthy_string. rewrite negb_false_iff, bool_decide_eq_true.
  destruct v as [s|]; cbn; [|done]. split; congruence.
Qed.

(** X9. [validateConfig] throws exactly when one of the two URL variables is
    set to the empty string; a variable that is not set falls back to its
    default and never makes it throw. When it returns, it returns [true]. *)
Theorem validateConfig_throws_iff env :
  ((∃ message, validateConfig env = inl message)
   ↔ NEXT_PUBLIC_API_URL env = Some ""%string
     ∨ NEXT_PUBLIC_COPKIT_URL env = Some ""%string)
  ∧ (validateConfig env = inr true
     ↔ ¬ (NEXT_PUBLIC_API_URL env = Some ""%string
          ∨ NEXT_PUBLIC_COPKIT_URL env = Some ""%string)).
Proof.
  unfold validateConfig, configErrors.
  rewrite <- (default_falsy_iff "http://localhost:8000" (NEXT_PUBLIC_API_URL env))
    by done.
  rewrite <- (default_falsy_iff "http://localhost:8000/copilotkit"
                (NEXT_PUBLIC_COPKIT_URL env)) by done.
  fold (apiUrl env) (copilotkitUrl env).
  destruct (truthy_string (apiUrl env)), (truthy_string (copilotkitUrl env)); cbn.
  - split; split; try tauto; try done.
    + intros [m Hm]. discriminate.
    + intros [|]; done.
    + intros _ [|]; done.
  - split; split; try tauto; try done; eauto.
  - split; split; try tauto; try done; eauto.
  - split; split; try tauto; try done; eauto.
Qed.

End ApiExtra.

(* ====================================================================== *)
(** * More on the socket manager *)
(* ====================================================================== *)

Module WsExtra.
Import Ws.

(** X10. Over every sequence of calls and socket events, from a new manager
    or from any state it can reach, the messages transmitted so far followed
    by the messages still queued grow by exactly the messages handed to
    [send], in call order: none is lost, none goes out twice, none overtakes
    another. From a new manager they are the messages handed to [send]. *)
Theorem outbound_order_preserved {Data} config (m : WebSocketManager Data)
    (acts : list (Trigger Data)) :
  reachable_manager config m →
  (snd <$> emitted (handle_all config m acts))
    ++ messageQueue (handle_all config m acts)
  = ((snd <$> emitted m) ++ messageQueue m) ++ sends_of acts
  ∧ (snd <$> emitted (handle_all config new_manager acts))
      ++ messageQueue (handle_all config new_manager acts)
    = sends_of acts.
Proof.
  intros Hreach. split.
  - induction acts as [|a acts IH] using rev_ind.
    + cbn. by rewrite app_nil_r.
    + rewrite WsSpec.run_snoc, WsSpec.sends_of_snoc.
      rewrite WsSpec.outbound_history_step.
      * by rewrite IH, app_assoc.
      * by apply WsSpec.inv_reachable, WsSpec.reachable_run.
  - induction acts as [|a acts IH] using rev_ind; [done|].
    rewrite WsSpec.run_snoc, WsSpec.sends_of_snoc, <- IH.
    apply WsSpec.outbound_history_step, WsSpec.inv_reachable, WsSpec.reachable_run.
    apply reachable_new.
Qed.

Lemma outbound_order_preserved_witness :
  (snd <$> emitted
             (handle_all on
                (handle_all on new_manager [CallSend "ping" 1%nat "t1"; SocketConnect])
                [CallSend "task" 2%nat "t2"; SocketDisconnect "transport close";
                 CallSend "ping" 3%nat "t3"]))
    ++ messageQueue
         (handle_all on
            (handle_all on new_manager [CallSend "ping" 1%nat "t1"; SocketConnect])
            [CallSend "task" 2%nat "t2"; SocketDisconnect "transport close";
             CallSend "ping" 3%nat "t3"])
  = ((snd <$> emitted
                (handle_all on new_manager [CallSend "ping" 1%nat "t1"; SocketConnect]))
       ++ messageQueue
            (handle_all on new_manager [CallSend "ping" 1%nat "t1"; SocketConnect]))
      ++ sends_of [CallSend "task" 2%nat "t2"; SocketDisconnect "transport close";
                   CallSend "ping" 3%nat "t3"]
  ∧ (snd <$> emitted
               (handle_all on new_manager
                  [CallSend "task" 2%nat "t2"; SocketDisconnect "transport close";
                   CallSend "ping" 3%nat "t3"]))
      ++ messageQueue
           (handle_all on new_manager
              [CallSend "task" 2%nat "t2"; SocketDisconnect "transport close";
               CallSend "ping" 3%nat "t3"])
    = sends_of [CallSend "task" 2%nat "t2"; SocketDisconnect "transport close";
                CallSend "ping" 3%nat "t3"].
Proof.
  apply (outbound_order_preserved on
           (handle_all on new_manager [CallSend "ping" 1%nat "t1"; SocketConnect])
           [CallSend "task" 2%nat "t2"; SocketDisconnect "transport close";
            CallSend "ping" 3%nat "t3"]).
  apply WsSpec.reachable_run, reachable_new.
Defined.

(** X11. In every reachable state, a connected manager has an empty queue
    and no connection attempt in flight. *)
Theorem connected_manager_settled {Data} config (m : WebSocketManager Data) :
  reachable_manager config m →
  isConnected m = true →
  messageQueue m = [] ∧ isConnecting m = false.
Proof.
  intros Hreach Hc. apply WsSpec.inv_reachable in Hreach.
  split; [by eapply WsSpec.connected_queue_empty|].
  destruct Hreach as (Hconn & _ & _).
  destruct (isConnecting m); [|done].
  destruct (Hconn eq_refl) as (sk & Hsk & Hsk' & _).
  unfold isConnected in Hc. rewrite Hsk in Hc. congruence.
Qed.

Lemma connected_manager_settled_witness :
  messageQueue (handle_all on new_manager
                  [CallSend "ping" 1%nat "t1"; SocketConnect]) = []
  ∧ isConnecting (handle_all on new_manager
                    [CallSend "ping" 1%nat "t1"; SocketConnect]) = false.
Proof.
  apply (connected_manager_settled on
           (handle_all on new_manager [CallSend "ping" 1%nat "t1"; SocketConnect])).
  - apply WsSpec.reachable_run, reachable_new.
  - reflexivity.
Defined.

Lemma disabled_emits_nothing {Data} config (m : WebSocketManager Data) :
  enableWebSocket config = false →
  reachable_manager config m →
  emitted m = [].
Proof.
  intros Hoff. induction 1 as [|m a Hreach IH]; [done|].
  apply WsSpec.inv_reachable in Hreach as (_ & _ & Hnone).
  specialize (Hnone Hoff).
  assert (isConnected m = false) as Hc by (unfold isConnected; by rewrite Hnone).
  assert (a = SocketConnect ∨ a ≠ SocketConnect) as [->|Hne].
  { destruct a; (by left) || (by right). }
  - unfold handle. cbn. by rewrite Hnone.
  - by destruct (WsSpec.step_while_disconnected config m a Hc Hne) as (_ & _ & ->).
Qed.

(** X12. With the socket disabled in the configuration the manager never
    opens a socket: whatever is called, nothing is transmitted, no attempt
    is in flight, and every message handed to [send] stays in the queue. *)
Theorem disabled_never_transmits {Data} config (acts : list (Trigger Data)) :
  enableWebSocket config = false →
  socket (handle_all config new_manager acts) = None
  ∧ isConnecting (handle_all config new_manager acts) = false
  ∧ emitted (handle_all config new_manager acts) = []
  ∧ messageQueue (handle_all config new_manager acts) = sends_of acts.
Proof.
  intros Hoff.
  assert (reachable_manager config (handle_all config new_manager acts)) as Hreach
    by apply WsSpec.reachable_run, reachable_new.
  pose proof (disabled_emits_nothing config _ Hoff Hreach) as Hem.
  apply WsSpec.inv_reachable in Hreach as (Hconn & _ & Hnone).
  specialize (Hnone Hoff).
  split; [done|]. split.
  { destruct (isConnecting _); [|done].
    destruct (Hconn eq_refl) as (sk & Hsk & _). congruence. }
  split; [done|].
  pose proof (WsSpec.outbound_history config acts) as Hhist.
  by rewrite Hem in Hhist.
Qed.

Lemma disabled_never_transmits_witness :
  socket (handle_all (config None) new_manager
            [CallSend "ping" 1%nat "t1"; CallConnect; SocketConnect]) = None
  ∧ isConnecting (handle_all (config None) new_manager
                    [CallSend "ping" 1%nat "t1"; CallConnect; SocketConnect]) = false
  ∧ emitted (handle_all (config None) new_manager
               [CallSend "ping" 1%nat "t1"; CallConnect; SocketConnect]) = []
  ∧ messageQueue (handle_all (config None) new_manager
                    [CallSend "ping" 1%nat "t1"; CallConnect; SocketConnect])
    = sends_of [CallSend "ping" 1%nat "t1"; CallConnect; SocketConnect].
Proof.
  apply (disabled_never_transmits (config None)
           [CallSend "ping" 1%nat "t1"; CallConnect; SocketConnect]).
  reflexivity.
Defined.

(** X13. [connect()] is idempotent: a second call in a row changes nothing,
    and after a call that opened a socket the next one returns [true] at
    once. *)
Theorem connect_idempotent {Data} config (m : WebSocketManager Data) :
  fst (connect config (fst (connect config m))) = fst (connect config m)
  ∧ (snd (connect config m) = Pending →
     snd (connect config (fst (connect config m))) = Settled true).
Proof.
  unfold connect.
  destruct (isConnected m || isConnecting m) eqn:Hbusy; cbn [fst snd].
  { rewrite Hbusy. done. }
  destruct (enableWebSocket config) eqn:Hcfg; cbn [negb fst snd].
  - unfold isConnected. cbn. done.
  - rewrite Hbusy. done.
Qed.

(** X14. An explicit [disconnect()] keeps the queue: from every reachable
    state, with the socket enabled, disconnecting, connecting again and
    getting the connect event transmits exactly the messages that were
    waiting, oldest first, and leaves the queue empty. *)
Theorem queue_survives_disconnect {Data} config (m : WebSocketManager Data) :
  reachable_manager config m →
  enableWebSocket config = true →
  messageQueue (handle_all config m [CallDisconnect; CallConnect; SocketConnect]) = []
  ∧ emitted (handle_all config m [CallDisconnect; CallConnect; SocketConnect])
    = emitted m ++ (wire <$> messageQueue m)
  ∧ isConnected (handle_all config m [CallDisconnect; CallConnect; SocketConnect])
    = true.
Proof.
  intros Hreach Hcfg.
  change (handle_all config m [CallDisconnect; CallConnect; SocketConnect])
    with (handle config (handle_all config m [CallDisconnect; CallConnect])
            SocketConnect).
  assert (handle_all config m [CallDisconnect; CallConnect]
          = {| socket := Some fresh_socket; reconnectAttempts := reconnectAttempts m;
               isConnecting := true; messageQueue := messageQueue m;
               emitted := emitted m |}) as Hm2.
  { unfold handle_all, handle. cbn [foldl enabled fire].
    unfold connect, disconnect, isConnected. cbn. by rewrite Hcfg. }
  destruct (WsSpec.connect_flushes_queue config
              (handle_all config m [CallDisconnect; CallConnect]))
    as (Hc & Hq & He).
  - by apply WsSpec.inv_reachable, WsSpec.reachable_run.
  - by rewrite Hm2.
  - rewrite Hc, Hq, He, Hm2. done.
Qed.

Lemma queue_survives_disconnect_witness :
  messageQueue
    (handle_all on (handle_all on new_manager [CallSend "ping" 1%nat "t1"])
       [CallDisconnect; CallConnect; SocketConnect]) = []
  ∧ emitted
      (handle_all on (handle_all on new_manager [CallSend "ping" 1%nat "t1"])
         [CallDisconnect; CallConnect; SocketConnect])
    = [] ++ (wire <$> [{| type := "ping"; data := 1%nat; timestamp := "t1" |}])
  ∧ isConnected
      (handle_all on (handle_all on new_manager [CallSend "ping" 1%nat "t1"])
         [CallDisconnect; CallConnect; SocketConnect]) = true.
Proof.
  apply (queue_survives_disconnect on
           (handle_all on new_manager [CallSend "ping" 1%nat "t1"])).
  - apply WsSpec.reachable_run, reachable_new.
  - reflexivity.
Defined.

End WsExtra.

(* ====================================================================== *)
(** * Properties of the listeners *)
(* ====================================================================== *)

Module ListenersSpec.
Import WsListeners.

Lemma indexOf_first callback l1 l2 :
  callback ∉ l1 → indexOf callback (l1 ++ callback :: l2) = Some (length l1).
Proof.
  induction l1 as [|c l1 IH]; intros Hnot; cbn.
  - by rewrite decide_True.
  - apply not_elem_of_cons in Hnot as [Hne Hnot].
    rewrite decide_False by done. by rewrite IH.
Qed.

Lemma indexOf_absent callback l : callback ∉ l → indexOf callback l = None.
Proof.
  induction l as [|c l IH]; intros Hnot; cbn; [done|].
  apply not_elem_of_cons in Hnot as [Hne Hnot].
  rewrite decide_False by done. by rewrite IH.
Qed.

Lemma emit_loop_spec throws l : ∀ d,
  called (emit_loop throws l d) = called d ++ l
  ∧ logged (emit_loop throws l d)
    = logged d ++ filter (λ c, throws c = true) l.
Proof.
  induction l as [|c l IH]; intros d; cbn [emit_loop].
  - by rewrite !app_nil_r.
  - destruct (IH (if throws c
                  then {| called := called d ++ [c]; logged := logged d ++ [c] |}
                  else {| called := called d ++ [c]; logged := logged d |}))
      as [-> ->].
    destruct (throws c) eqn:Hc; cbn [called logged].
    + rewrite filter_cons_True by done. by rewrite <- !app_assoc.
    + rewrite filter_cons_False by congruence. by rewrite <- !app_assoc.
Qed.

(** X15. [off] removes the first registration of the callback for the event
    and nothing else: the other registrations of the event keep their
    order, a second registration of the same callback stays, and the
    listeners of other events are untouched. *)
Theorem off_removes_first_registration event callback eventListeners l1 l2 :
  eventListeners !! event = Some (l1 ++ callback :: l2) →
  callback ∉ l1 →
  off event callback eventListeners = <[event := l1 ++ l2]> eventListeners
  ∧ listeners_of event (off event callback eventListeners) = l1 ++ l2
  ∧ ∀ event', event' ≠ event →
      listeners_of event' (off event callback eventListeners)
      = listeners_of event' eventListeners.
Proof.
  intros Hl Hnot. unfold off. rewrite Hl, indexOf_first by done.
  rewrite delete_middle. split; [done|]. unfold listeners_of. split.
  - by rewrite lookup_insert_eq.
  - intros event' Hne. by rewrite lookup_insert_ne.
Qed.

Lemma off_removes_first_registration_witness :
  off "message" 7%nat {["message"%string := [3; 7; 5; 7]%nat]}
  = <["message"%string := [3%nat] ++ [5; 7]%nat]> {["message"%string := [3; 7; 5; 7]%nat]}
  ∧ listeners_of "message" (off "message" 7%nat {["message"%string := [3; 7; 5; 7]%nat]})
    = [3%nat] ++ [5; 7]%nat
  ∧ ∀ event', event' ≠ "message"%string →
      listeners_of event' (off "message" 7%nat {["message"%string := [3; 7; 5; 7]%nat]})
      = listeners_of event' {["message"%string := [3; 7; 5; 7]%nat]}.
Proof.
  apply (off_removes_first_registration "message" 7%nat
           {["message"%string := [3; 7; 5; 7]%nat]} [3%nat] [5; 7]%nat).
  - reflexivity.
  - intros Hin. apply list_elem_of_singleton in Hin. discriminate.
Defined.

(** X16. Registering a callback that the event does not have yet and
    removing it again gives back the listeners of every event; removing a
    callback that is not registered, or from an event without listeners,
    changes nothing. *)
Theorem on_off_round_trip event callback eventListeners :
  callback ∉ listeners_of event eventListeners →
  off event callback eventListeners = eventListeners
  ∧ ∀ event',
      listeners_of event' (off event callback (on event callback eventListeners))
      = listeners_of event' eventListeners.
Proof.
  intros Hnot. unfold listeners_of in Hnot. split.
  - unfold off. destruct (eventListeners !! event) as [l|] eqn:Hl; [|done].
    cbn in Hnot. by rewrite indexOf_absent.
  - intros event'. unfold off, on. rewrite lookup_insert_eq.
    rewrite indexOf_first by done. rewrite delete_middle, app_nil_r.
    rewrite insert_insert_eq. unfold listeners_of.
    destruct (decide (event' = event)) as [->|Hne].
    + by rewrite lookup_insert_eq.
    + by rewrite lookup_insert_ne.
Qed.

Lemma on_off_round_trip_witness :
  off "connect" 4%nat {["message"%string := [4%nat]]} = {["message"%string := [4%nat]]}
  ∧ ∀ event',
      listeners_of event'
        (off "connect" 4%nat (on "connect" 4%nat {["message"%string := [4%nat]]}))
      = listeners_of event' {["message"%string := [4%nat]]}.
Proof.
  apply (on_off_round_trip "connect" 4%nat {["message"%string := [4%nat]]}).
  intros Hin. by apply elem_of_nil in Hin.
Defined.

(** X17. [emit] calls every callback registered for the event, once per
    registration and in the order of registration, whether or not an
    earlier one throws; it logs exactly those that throw, and calls no
    callback of another event. A callback added with [on] is called last. *)
Theorem emit_reaches_every_listener throws event callback eventListeners :
  called (emit throws event eventListeners) = listeners_of event eventListeners
  ∧ logged (emit throws event eventListeners)
    = filter (λ c, throws c = true) (listeners_of event eventListeners)
  ∧ called (emit throws event (on event callback eventListeners))
    = listeners_of event eventListeners ++ [callback].
Proof.
  unfold emit, listeners_of, on. rewrite lookup_insert_eq.
  destruct (eventListeners !! event) as [l|]; cbn [default from_option];
    unfold id.
  - destruct (emit_loop_spec throws l {| called := []; logged := [] |}) as [-> ->].
    destruct (emit_loop_spec throws (l ++ [callback]) {| called := []; logged := [] |})
      as [-> _].
    done.
  - cbn. by destruct (throws callback).
Qed.

End ListenersSpec.

(* ====================================================================== *)
(** * More on the store and on the push-event handlers *)
(* ====================================================================== *)

Module StoreExtra.
Import Store WsHandlers.

Section Facts.
Context {Any : Type}.
Implicit Types (state : AgentState Any) (a : Action Any) (acts : list (Action Any)).

Lemma fmap_matched_proj {A B} (proj : A → B) (p : A → bool) (f : A → A) (l : list A) :
  (∀ x, proj (f x) = proj x) →
  proj <$> ((λ x, if p x then f x else x) <$> l) = proj <$> l.
Proof.
  intros Hf. rewrite <- list_fmap_compose. apply list_fmap_ext.
  intros _ x _. cbn. by destruct (p x).
Qed.

Lemma agents_ids_names_step state a :
  Agent.id <$> agents state = Agent.id <$> initialAgents →
  Agent.name <$> agents state = Agent.name <$> initialAgents →
  Agent.id <$> agents (step state a) = Agent.id <$> initialAgents
  ∧ Agent.name <$> agents (step state a) = Agent.name <$> initialAgents.
Proof.
  intros Hid Hname. destruct a; try done; cbn [step].
  - unfold updateAgentStatus. cbn [agents].
    rewrite (fmap_matched_proj Agent.id (λ agent, bool_decide (Agent.id agent = agentId)))
      by done.
    rewrite (fmap_matched_proj Agent.name
               (λ agent, bool_decide (Agent.id agent = agentId))) by done.
    done.
  - unfold updateAgentProgress. cbn [agents].
    rewrite (fmap_matched_proj Agent.id (λ agent, bool_decide (Agent.id agent = agentId)))
      by done.
    rewrite (fmap_matched_proj Agent.name
               (λ agent, bool_decide (Agent.id agent = agentId))) by done.
    done.
Qed.

(** What no action but [clearWorkflows] changes of a workflow. *)
Lemma workflow_identity_step state a i (w : Workflow.Workflow Any) :
  a ≠ ClearWorkflows →
  workflows state !! i = Some w →
  ∃ w', workflows (step state a) !! i = Some w'
        ∧ Workflow.id w' = Workflow.id w
        ∧ Workflow.type w' = Workflow.type w
        ∧ Workflow.steps w' = Workflow.steps w
        ∧ Workflow.startTime w' = Workflow.startTime w.
Proof.
  intros Hne Hw.
  destruct a; try (exists w; split; [exact Hw|by repeat split]); [| | |done].
  - exists w. split; [|by repeat split]. cbn. by apply lookup_app_l_Some.
  - cbn. rewrite list_lookup_fmap, Hw. cbn.
    case_bool_decide; eexists; (split; [done|by repeat split]).
  - cbn. rewrite list_lookup_fmap, Hw. cbn.
    case_bool_decide; eexists; (split; [done|by repeat split]).
Qed.

End Facts.

(** X18. In every reachable state of the store the agents are the five of
    the catalogue, in its order and under their names: no action adds,
    removes, renames or reorders an agent, the identifiers are pairwise
    different and each passes [isAgentType]. *)
Theorem agents_catalog_fixed {Any} (state : AgentState Any) :
  reachable state →
  Agent.id <$> agents state = AGENT_TYPES
  ∧ Agent.name <$> agents state
    = ["Repository Analyzer"; "Requirements Extractor"; "Architecture Designer";
       "Implementation Planner"; "Validator"]%string
  ∧ NoDup (Agent.id <$> agents state)
  ∧ Forall (λ agent, isAgentType (Agent.id agent) = true) (agents state).
Proof.
  intros Hreach.
  assert (Agent.id <$> agents state = Agent.id <$> initialAgents
          ∧ Agent.name <$> agents state = Agent.name <$> initialAgents)
    as [Hid Hname].
  { induction Hreach as [|state a _ [IHid IHname]]; [done|].
    by apply agents_ids_names_step. }
  split; [exact Hid|]. split; [exact Hname|]. split.
  - rewrite Hid. compute_done.
  - apply Forall_forall. intros agent Hin. unfold isAgentType.
    apply bool_decide_eq_true. change AGENT_TYPES with (Agent.id <$> initialAgents).
    rewrite <- Hid. by apply list_elem_of_fmap_2.
Qed.

Lemma agents_catalog_fixed_witness :
  Agent.id <$> agents
    (run (Any := unit) initial
       [UpdateAgentStatus "validator" Agent.Running None None; ResetAgents;
        UpdateAgentProgress "deployer" 5])
  = AGENT_TYPES
  ∧ Agent.name <$> agents
      (run (Any := unit) initial
         [UpdateAgentStatus "validator" Agent.Running None None; ResetAgents;
          UpdateAgentProgress "deployer" 5])
    = ["Repository Analyzer"; "Requirements Extractor"; "Architecture Designer";
       "Implementation Planner"; "Validator"]%string
  ∧ NoDup (Agent.id <$> agents
             (run (Any := unit) initial
                [UpdateAgentStatus "validator" Agent.Running None None; ResetAgents;
                 UpdateAgentProgress "deployer" 5]))
  ∧ Forall (λ agent, isAgentType (Agent.id agent) = true)
      (agents (run (Any := unit) initial
                 [UpdateAgentStatus "validator" Agent.Running None None; ResetAgents;
                  UpdateAgentProgress "deployer" 5])).
Proof.
  apply (agents_catalog_fixed
           (run (Any := unit) initial
              [UpdateAgentStatus "validator" Agent.Running None None; ResetAgents;
               UpdateAgentProgress "deployer" 5])).
  unfold run. cbn [foldl]. do 3 apply reachable_step. apply reachable_initial.
Defined.

(** X19. Along every sequence of store actions without [clearWorkflows], a
    workflow keeps its place in the list and its identifier, type, steps and
    start time: only its status, current step, end time, results and error
    are ever rewritten. *)
Theorem workflow_identity_kept {Any} (acts : list (Action Any)) :
  ∀ (state : AgentState Any) i w,
  ClearWorkflows ∉ acts →
  workflows state !! i = Some w →
  ∃ w', workflows (run state acts) !! i = Some w'
        ∧ Workflow.id w' = Workflow.id w
        ∧ Workflow.type w' = Workflow.type w
        ∧ Workflow.steps w' = Workflow.steps w
        ∧ Workflow.startTime w' = Workflow.startTime w.
Proof.
  induction acts as [|a acts IH]; intros state i w Hclear Hw.
  - exists w. by repeat split.
  - apply not_elem_of_cons in Hclear as [Hne Hclear].
    destruct (workflow_identity_step state a i w) as (w1 & Hw1 & H1 & H2 & H3 & H4);
      [done..|].
    destruct (IH (step state a) i w1 Hclear Hw1) as (w' & Hw' & H1' & H2' & H3' & H4').
    exists w'. change (run state (a :: acts)) with (run (step state a) acts).
    split; [done|]. repeat split; congruence.
Qed.

Lemma workflow_identity_kept_witness :
  ∃ w', workflows
          (run (Any := unit)
             (step initial (StartWorkflow "full_analysis" ["analyze"; "plan"]%string 5 "t0"))
             [UpdateWorkflowStatus "workflow_5" Workflow.Error None (Some "boom"%string) "t1";
              CompleteWorkflow "workflow_5" tt "t2"]) !! 0%nat = Some w'
        ∧ Workflow.id w' = "workflow_5"%string
        ∧ Workflow.type w' = "full_analysis"%string
        ∧ Workflow.steps w' = ["analyze"; "plan"]%string
        ∧ Workflow.startTime w' = Some "t0"%string.
Proof.
  apply (workflow_identity_kept (Any := unit)
           [UpdateWorkflowStatus "workflow_5" Workflow.Error None (Some "boom"%string) "t1";
            CompleteWorkflow "workflow_5" tt "t2"]
           (step initial (StartWorkflow "full_analysis" ["analyze"; "plan"]%string 5 "t0"))
           0%nat
           {| Workflow.id := "workflow_5"; Workflow.type := "full_analysis";
              Workflow.status := Workflow.Running; Workflow.startTime := Some "t0"%string;
              Workflow.endTime := None; Workflow.steps := ["analyze"; "plan"]%string;
              Workflow.currentStep := Some "analyze"%string;
              Workflow.results := None; Workflow.error := None |}).
  - intros Hin. repeat (apply elem_of_cons in Hin as [Hin|Hin]; [discriminate|]).
    by apply elem_of_nil in Hin.
  - reflexivity.
Defined.

(** X20. [completeWorkflow] with an identifier that no workflow carries
    leaves the list and the active workflow as they were, and all the same
    clears the executing flag and the current task. *)
Theorem completeWorkflow_unknown_id {Any} (state : AgentState Any)
    workflowId results nowIso :
  (∀ w, w ∈ workflows state ∨ activeWorkflow state = Some w →
        Workflow.id w ≠ workflowId) →
  workflows (completeWorkflow workflowId results nowIso state) = workflows state
  ∧ activeWorkflow (completeWorkflow workflowId results nowIso state)
    = activeWorkflow state
  ∧ isExecuting (completeWorkflow workflowId results nowIso state) = false
  ∧ currentTask (completeWorkflow workflowId results nowIso state) = None.
Proof.
  intros Hno. unfold completeWorkflow. cbn. split; [|split; [|done]].
  - apply (StoreSpec.fmap_unmatched
             (λ w, bool_decide (Workflow.id w = workflowId))).
    intros w Hin. apply bool_decide_eq_false. apply Hno. by left.
  - destruct (activeWorkflow state) as [active|] eqn:Hactive; [|done].
    rewrite bool_decide_eq_false_2; [done|]. apply Hno. by right.
Qed.

Lemma completeWorkflow_unknown_id_witness :
  workflows (completeWorkflow "workflow_9" tt "t1"
               (step initial (StartWorkflow "full_analysis" ["analyze"]%string 5 "t0")))
  = workflows (step (Any := unit) initial
                 (StartWorkflow "full_analysis" ["analyze"]%string 5 "t0"))
  ∧ activeWorkflow
      (completeWorkflow "workflow_9" tt "t1"
         (step initial (StartWorkflow "full_analysis" ["analyze"]%string 5 "t0")))
    = activeWorkflow (step (Any := unit) initial
                        (StartWorkflow "full_analysis" ["analyze"]%string 5 "t0"))
  ∧ isExecuting
      (completeWorkflow "workflow_9" tt "t1"
         (step initial (StartWorkflow "full_analysis" ["analyze"]%string 5 "t0")))
    = false
  ∧ currentTask
      (completeWorkflow "workflow_9" tt "t1"
         (step initial (StartWorkflow "full_analysis" ["analyze"]%string 5 "t0")))
    = None.
Proof.
  apply (completeWorkflow_unknown_id (Any := unit)
           (step initial (StartWorkflow "full_analysis" ["analyze"]%string 5 "t0"))
           "workflow_9" tt "t1").
  intros w [Hin|Hact].
  - cbn in Hin. apply list_elem_of_singleton in Hin as ->. discriminate.
  - cbn in Hact. injection Hact as <-. discriminate.
Defined.

(** X21. Starting a workflow and completing it by its identifier: the new
    entry is last in the list, completed, with the results, its end time
    stamped and its first step still current; the active workflow is
    completed with the results too but keeps no end time; the executing
    flag and the current task are cleared. *)
Theorem start_then_complete {Any} (state : AgentState Any)
    type steps nowMs startIso (results : Any) endIso :
  last (workflows
          (completeWorkflow ("workflow_" +:+ pretty nowMs) results endIso
             (startWorkflow type steps nowMs startIso state)))
  = Some {| Workflow.id := "workflow_" +:+ pretty nowMs; Workflow.type := type;
            Workflow.status := Workflow.Completed;
            Workflow.startTime := Some startIso; Workflow.endTime := Some endIso;
            Workflow.steps := steps; Workflow.currentStep := head steps;
            Workflow.results := Some results; Workflow.error := None |}
  ∧ activeWorkflow
      (completeWorkflow ("workflow_" +:+ pretty nowMs) results endIso
         (startWorkflow type steps nowMs startIso state))
    = Some {| Workflow.id := "workflow_" +:+ pretty nowMs; Workflow.type := type;
              Workflow.status := Workflow.Completed;
              Workflow.startTime := Some startIso; Workflow.endTime := None;
              Workflow.steps := steps; Workflow.currentStep := head steps;
              Workflow.results := Some results; Workflow.error := None |}
  ∧ length (workflows
              (completeWorkflow ("workflow_" +:+ pretty nowMs) results endIso
                 (startWorkflow type steps nowMs startIso state)))
    = S (length (workflows state))
  ∧ isExecuting
      (completeWorkflow ("workflow_" +:+ pretty nowMs) results endIso
         (startWorkflow type steps nowMs startIso state)) = false
  ∧ currentTask
      (completeWorkflow ("workflow_" +:+ pretty nowMs) results endIso
         (startWorkflow type steps nowMs startIso state)) = None.
Proof.
  unfold completeWorkflow, startWorkflow.
  cbn [workflows activeWorkflow isExecuting currentTask].
  rewrite fmap_app, length_app, length_fmap.
  change (?f <$> [?w]) with [f w]. rewrite last_snoc.
  cbn [Workflow.id Workflow.type Workflow.startTime Workflow.steps
       Workflow.currentStep Workflow.error length].
  rewrite !bool_decide_eq_true_2 by done.
  repeat split. lia.
Qed.

End StoreExtra.

(* ====================================================================== *)
(** * Properties of the push-event handlers *)
(* ====================================================================== *)

Module HandlersSpec.
Import Store WsHandlers.

(** X22. An agent status update for a listed agent: the agent gets the
    status, task and error of the message; its progress is the progress of
    the message when there is one, and otherwise 100 for completed and 0 for
    any other status; agents with another identifier are unchanged, and one
    activity entry is put in front of the log. *)
Theorem status_update_sets_progress {R}
    (data : AgentStatusUpdate.AgentStatusUpdate) nowMs nowIso
    (store : AgentState (Payload R)) i agent :
  agents store !! i = Some agent →
  agents (handleAgentStatusUpdate data nowMs nowIso store) !! i
  = Some (if bool_decide (Agent.id agent = AgentStatusUpdate.agentId data) then
            {| Agent.id := Agent.id agent;
               Agent.name := Agent.name agent;
               Agent.status := AgentStatusUpdate.status data;
               Agent.currentTask := AgentStatusUpdate.task data;
               Agent.lastCompleted := Agent.lastCompleted agent;
               Agent.error := AgentStatusUpdate.error data;
               Agent.progress :=
                 Some (default
                         (match AgentStatusUpdate.status data with
                          | Agent.Completed => 100
                          | _ => 0
                          end)
                         (AgentStatusUpdate.progress data)) |}
          else agent)
  ∧ activityLog (handleAgentStatusUpdate data nowMs nowIso store)
    = activity (AgentStatusUpdate.agentId data)
        ("Status changed to " +:+ agentStatus_name (AgentStatusUpdate.status data))
        (Some (AgentDetails (AgentStatusUpdate.task data)
                 (AgentStatusUpdate.error data) (AgentStatusUpdate.progress data)))
        nowMs nowIso
      :: take 99 (activityLog store).
Proof.
  intros Hagent. unfold handleAgentStatusUpdate.
  destruct (AgentStatusUpdate.progress data) as [p|];
    cbn [addActivity with_activityLog agents activityLog updateAgentStatus
         updateAgentProgress default from_option];
    (split; [|done]); rewrite !list_lookup_fmap, Hagent;
    cbn [fmap option_fmap option_map];
    destruct (decide (Agent.id agent = AgentStatusUpdate.agentId data)) as [Hid|Hid].
  - rewrite (bool_decide_eq_true_2 _ Hid). cbn [Agent.id].
    by rewrite (bool_decide_eq_true_2 _ Hid).
  - rewrite (bool_decide_eq_false_2 _ Hid). by rewrite (bool_decide_eq_false_2 _ Hid).
  - rewrite (bool_decide_eq_true_2 _ Hid).
    by destruct (AgentStatusUpdate.status data).
  - by rewrite (bool_decide_eq_false_2 _ Hid).
Qed.

Lemma status_update_sets_progress_witness :
  agents (handleAgentStatusUpdate (R := unit)
            {| AgentStatusUpdate.agentId := "validator";
               AgentStatusUpdate.status := Agent.Running;
               AgentStatusUpdate.task := Some "check"%string;
               AgentStatusUpdate.error := None;
               AgentStatusUpdate.progress := Some 40 |} 9 "t" initial) !! 4%nat
  = Some (if bool_decide ("validator"%string = "validator"%string) then
            {| Agent.id := "validator"; Agent.name := "Validator";
               Agent.status := Agent.Running;
               Agent.currentTask := Some "check"%string;
               Agent.lastCompleted := None; Agent.error := None;
               Agent.progress := Some (default 0 (Some 40)) |}
          else initialAgent "validator" "Validator")
  ∧ activityLog (handleAgentStatusUpdate (R := unit)
                   {| AgentStatusUpdate.agentId := "validator";
                      AgentStatusUpdate.status := Agent.Running;
                      AgentStatusUpdate.task := Some "check"%string;
                      AgentStatusUpdate.error := None;
                      AgentStatusUpdate.progress := Some 40 |} 9 "t" initial)
    = activity "validator" ("Status changed to " +:+ "running")
        (Some (AgentDetails (Some "check"%string) None (Some 40))) 9 "t"
      :: take 99 [].
Proof.
  apply (status_update_sets_progress (R := unit)
           {| AgentStatusUpdate.agentId := "validator";
              AgentStatusUpdate.status := Agent.Running;
              AgentStatusUpdate.task := Some "check"%string;
              AgentStatusUpdate.error := None;
              AgentStatusUpdate.progress := Some 40 |} 9 "t" initial 4%nat
           (initialAgent "validator" "Validator")).
  reflexivity.
Defined.

(** X23. An agent status update for an identifier that no agent carries
    leaves the agents as they are, and still logs an activity under that
    identifier. *)
Theorem status_update_unknown_agent_logged {R}
    (data : AgentStatusUpdate.AgentStatusUpdate) nowMs nowIso
    (store : AgentState (Payload R)) :
  (∀ agent, agent ∈ agents store →
            Agent.id agent ≠ AgentStatusUpdate.agentId data) →
  agents (handleAgentStatusUpdate data nowMs nowIso store) = agents store
  ∧ ∃ entry,
      head (activityLog (handleAgentStatusUpdate data nowMs nowIso store))
      = Some entry
      ∧ Activity.agentId entry = AgentStatusUpdate.agentId data.
Proof.
  intros Hno. unfold handleAgentStatusUpdate.
  assert (∀ f, (λ agent : Agent.Agent,
                  if bool_decide (Agent.id agent = AgentStatusUpdate.agentId data)
                  then f agent else agent) <$> agents store = agents store) as Hmap.
  { intros f.
    apply (StoreSpec.fmap_unmatched
             (λ agent, bool_decide (Agent.id agent = AgentStatusUpdate.agentId data))).
    intros agent Hin. apply bool_decide_eq_false. by apply Hno. }
  split; [|eexists; split; [reflexivity|done]].
  cbn [addActivity with_activityLog agents].
  destruct (AgentStatusUpdate.progress data) as [p|];
    cbn [updateAgentStatus updateAgentProgress agents];
    by rewrite !Hmap.
Qed.

Lemma status_update_unknown_agent_logged_witness :
  agents (handleAgentStatusUpdate (R := unit)
            {| AgentStatusUpdate.agentId := "deployer";
               AgentStatusUpdate.status := Agent.Error;
               AgentStatusUpdate.task := None;
               AgentStatusUpdate.error := Some "boom"%string;
               AgentStatusUpdate.progress := Some 10 |} 9 "t" initial)
  = agents (Any := Payload unit) initial
  ∧ ∃ entry,
      head (activityLog (handleAgentStatusUpdate (R := unit)
                           {| AgentStatusUpdate.agentId := "deployer";
                              AgentStatusUpdate.status := Agent.Error;
                              AgentStatusUpdate.task := None;
                              AgentStatusUpdate.error := Some "boom"%string;
                              AgentStatusUpdate.progress := Some 10 |} 9 "t" initial))
      = Some entry
      ∧ Activity.agentId entry = "deployer"%string.
Proof.
  apply (status_update_unknown_agent_logged (R := unit)
           {| AgentStatusUpdate.agentId := "deployer";
              AgentStatusUpdate.status := Agent.Error;
              AgentStatusUpdate.task := None;
              AgentStatusUpdate.error := Some "boom"%string;
              AgentStatusUpdate.progress := Some 10 |} 9 "t" initial).
  intros agent Hin. cbn in Hin.
  repeat (apply elem_of_cons in Hin as [->|Hin]; [discriminate|]).
  by apply elem_of_nil in Hin.
Defined.

(** X24. A workflow update that says completed but brings no results, or
    results that are falsy, goes through [updateWorkflowStatus]: the
    workflows with that identifier become completed with their end time
    stamped and their results untouched, while the executing flag and the
    current task stay as they were. *)
Theorem completed_without_results_keeps_executing {R} (truthy : R → bool)
    (data : WorkflowUpdate.WorkflowUpdate R) stampIso nowMs nowIso
    (store : AgentState (Payload R)) :
  WorkflowUpdate.status data = Workflow.Completed →
  (∀ r, WorkflowUpdate.results data = Some r → truthy r = false) →
  isExecuting (handleWorkflowUpdate truthy data stampIso nowMs nowIso store)
  = isExecuting store
  ∧ currentTask (handleWorkflowUpdate truthy data stampIso nowMs nowIso store)
    = currentTask store
  ∧ ∀ i w, workflows store !! i = Some w →
           Workflow.id w = WorkflowUpdate.workflowId data →
           ∃ w', workflows (handleWorkflowUpdate truthy data stampIso nowMs nowIso store)
                   !! i = Some w'
                 ∧ Workflow.status w' = Workflow.Completed
                 ∧ Workflow.endTime w' = Some stampIso
                 ∧ Workflow.results w' = Workflow.results w.
Proof.
  intros Hstatus Hfalsy. unfold handleWorkflowUpdate.
  assert (completed_with_results truthy data = None) as ->.
  { unfold completed_with_results. rewrite Hstatus.
    rewrite bool_decide_eq_true_2 by done.
    destruct (WorkflowUpdate.results data) as [r|]; [|done].
    by rewrite (Hfalsy r). }
  cbn [addActivity with_activityLog isExecuting currentTask workflows
       updateWorkflowStatus].
  split; [done|]. split; [done|].
  intros i w Hw Hid. rewrite list_lookup_fmap, Hw. cbn [fmap option_fmap option_map].
  rewrite (bool_decide_eq_true_2 _ Hid). eexists. split; [done|].
  cbn. by rewrite Hstatus.
Qed.

Lemma completed_without_results_keeps_executing_witness :
  isExecuting
    (handleWorkflowUpdate (λ _ : unit, true)
       {| WorkflowUpdate.workflowId := "workflow_5";
          WorkflowUpdate.status := Workflow.Completed;
          WorkflowUpdate.currentStep := None; WorkflowUpdate.step := None;
          WorkflowUpdate.totalSteps := None; WorkflowUpdate.error := None;
          WorkflowUpdate.results := None |} "t1" 9 "t2"
       (startWorkflow "full_analysis" ["analyze"]%string 5 "t0" initial))
  = isExecuting (startWorkflow (Any := Payload unit) "full_analysis"
                   ["analyze"]%string 5 "t0" initial)
  ∧ currentTask
      (handleWorkflowUpdate (λ _ : unit, true)
         {| WorkflowUpdate.workflowId := "workflow_5";
            WorkflowUpdate.status := Workflow.Completed;
            WorkflowUpdate.currentStep := None; WorkflowUpdate.step := None;
            WorkflowUpdate.totalSteps := None; WorkflowUpdate.error := None;
            WorkflowUpdate.results := None |} "t1" 9 "t2"
         (startWorkflow "full_analysis" ["analyze"]%string 5 "t0" initial))
    = currentTask (startWorkflow (Any := Payload unit) "full_analysis"
                     ["analyze"]%string 5 "t0" initial)
  ∧ ∀ i w,
      workflows (startWorkflow (Any := Payload unit) "full_analysis"
                   ["analyze"]%string 5 "t0" initial) !! i = Some w →
      Workflow.id w = "workflow_5"%string →
      ∃ w', workflows
              (handleWorkflowUpdate (λ _ : unit, true)
                 {| WorkflowUpdate.workflowId := "workflow_5";
                    WorkflowUpdate.status := Workflow.Completed;
                    WorkflowUpdate.currentStep := None; WorkflowUpdate.step := None;
                    WorkflowUpdate.totalSteps := None; WorkflowUpdate.error := None;
                    WorkflowUpdate.results := None |} "t1" 9 "t2"
                 (startWorkflow "full_analysis" ["analyze"]%string 5 "t0" initial))
              !! i = Some w'
            ∧ Workflow.status w' = Workflow.Completed
            ∧ Workflow.endTime w' = Some "t1"%string
            ∧ Workflow.results w' = Workflow.results w.
Proof.
  apply (completed_without_results_keeps_executing (λ _ : unit, true)
           {| WorkflowUpdate.workflowId := "workflow_5";
              WorkflowUpdate.status := Workflow.Completed;
              WorkflowUpdate.currentStep := None; WorkflowUpdate.step := None;
              WorkflowUpdate.totalSteps := None; WorkflowUpdate.error := None;
              WorkflowUpdate.results := None |} "t1" 9 "t2"
           (startWorkflow "full_analysis" ["analyze"]%string 5 "t0" initial)).
  - reflexivity.
  - intros r Hr. discriminate.
Defined.

End HandlersSpec.

(* ====================================================================== *)
(** * Properties of the authentication manager *)
(* ====================================================================== *)

Module AuthSpec.
Import Auth.

Lemma loadEntry_saved {A} (codec : Codec A) key (value current : option A)
    (localStorage : gmap string string) :
  round_trips codec value →
  localStorage !! key = stringify codec <$> value →
  loadEntry codec key current localStorage
  = (from_option Some current value, localStorage).
Proof.
  intros Hrt Hlook. unfold loadEntry. rewrite Hlook.
  destruct value as [v|]; cbn; [|done].
  destruct (Hrt v eq_refl) as [Hparse Hne].
  unfold truthy_string. rewrite bool_decide_eq_false_2 by done. cbn.
  by rewrite Hparse.
Qed.

(** X25. What [saveToStorage] writes, a new manager reads back: when JSON
    gives the tokens and the user back as they were, the manager built on
    the saved storage has the same tokens and the same user, absent ones
    included, and leaves the storage as saved. *)
Theorem save_load_round_trip tokensCodec userCodec m
    (localStorage : gmap string string) :
  round_trips tokensCodec (tokens m) →
  round_trips userCodec (user m) →
  constructor tokensCodec userCodec true
    (saveToStorage tokensCodec userCodec true m localStorage)
  = (m, saveToStorage tokensCodec userCodec true m localStorage).
Proof.
  intros Ht Hu. unfold constructor, loadFromStorage.
  rewrite (loadEntry_saved tokensCodec "auth_tokens" (tokens m)); [|done|].
  2:{ unfold saveToStorage, saveEntry.
      destruct (user m), (tokens m); cbn;
        rewrite ?lookup_insert_ne, ?lookup_delete_ne by done;
        by rewrite ?lookup_insert_eq, ?lookup_delete_eq. }
  rewrite (loadEntry_saved userCodec "auth_user" (user m)); [|done|].
  2:{ unfold saveToStorage, saveEntry.
      destruct (user m); cbn; by rewrite ?lookup_insert_eq, ?lookup_delete_eq. }
  destruct m as [[t|] [u|]]; done.
Qed.

Lemma save_load_round_trip_witness :
  constructor sampleTokensCodec sampleUserCodec true
    (saveToStorage sampleTokensCodec sampleUserCodec true
       {| tokens := Some sampleTokens; user := None |}
       {["auth_user"%string := "stale"%string]})
  = ({| tokens := Some sampleTokens; user := None |},
     saveToStorage sampleTokensCodec sampleUserCodec true
       {| tokens := Some sampleTokens; user := None |}
       {["auth_user"%string := "stale"%string]}).
Proof.
  apply (save_load_round_trip sampleTokensCodec sampleUserCodec
           {| tokens := Some sampleTokens; user := None |}
           {["auth_user"%string := "stale"%string]}).
  - intros v [= <-]. split; [reflexivity|discriminate].
  - intros v Hv. discriminate.
Defined.

(** X26. A stored tokens entry that JSON cannot parse is dropped: the
    manager starts without tokens, the entry is removed from the storage,
    and the user entry is read exactly as if the tokens entry had never
    been there. *)
Theorem corrupted_tokens_discarded tokensCodec userCodec stored
    (localStorage : gmap string string) :
  localStorage !! "auth_tokens"%string = Some stored →
  stored ≠ ""%string →
  parse tokensCodec stored = None →
  constructor tokensCodec userCodec true localStorage
  = constructor tokensCodec userCodec true (delete "auth_tokens"%string localStorage)
  ∧ tokens (constructor tokensCodec userCodec true localStorage).1 = None
  ∧ (constructor tokensCodec userCodec true localStorage).2 !! "auth_tokens"%string
    = None.
Proof.
  intros Hstored Hne Hparse.
  assert (loadEntry tokensCodec "auth_tokens" None localStorage
          = (None, delete "auth_tokens"%string localStorage)) as Hbad.
  { unfold loadEntry. rewrite Hstored. unfold truthy_string.
    rewrite bool_decide_eq_false_2 by done. cbn. by rewrite Hparse. }
  assert (loadEntry tokensCodec "auth_tokens" None
            (delete "auth_tokens"%string localStorage)
          = (None, delete "auth_tokens"%string localStorage)) as Hgone.
  { unfold loadEntry. by rewrite lookup_delete_eq. }
  unfold constructor, loadFromStorage. cbn [tokens user loggedOut].
  rewrite Hbad, Hgone. split; [done|].
  destruct (loadEntry userCodec "auth_user" None
              (delete "auth_tokens"%string localStorage)) as [u st'] eqn:Hu.
  cbn. split; [done|].
  unfold loadEntry in Hu.
  destruct (delete "auth_tokens"%string localStorage !! "auth_user"%string)
    as [su|]; [|injection Hu as <- <-; by rewrite lookup_delete_eq].
  destruct (truthy_string su); [|injection Hu as <- <-; by rewrite lookup_delete_eq].
  destruct (parse userCodec su); injection Hu as <- <-.
  - by rewrite lookup_delete_eq.
  - rewrite lookup_delete_ne by done. by rewrite lookup_delete_eq.
Qed.

Lemma corrupted_tokens_discarded_witness :
  constructor sampleTokensCodec sampleUserCodec true
    {["auth_tokens"%string := "{broken"%string]}
  = constructor sampleTokensCodec sampleUserCodec true
      (delete "auth_tokens"%string {["auth_tokens"%string := "{broken"%string]})
  ∧ tokens (constructor sampleTokensCodec sampleUserCodec true
              {["auth_tokens"%string := "{broken"%string]}).1 = None
  ∧ (constructor sampleTokensCodec sampleUserCodec true
       {["auth_tokens"%string := "{broken"%string]}).2 !! "auth_tokens"%string = None.
Proof.
  apply (corrupted_tokens_discarded sampleTokensCodec sampleUserCodec "{broken"
           {["auth_tokens"%string := "{broken"%string]}).
  - reflexivity.
  - discriminate.
  - reflexivity.
Defined.

(** X27. [logout] ends the session whatever the server answers: the manager
    has neither tokens nor user, both entries are gone from the storage and
    no other entry is touched, a manager built afterwards starts logged out,
    and the logout request is sent exactly when there were tokens. *)
Theorem logout_clears_session tokensCodec userCodec now m
    (localStorage : gmap string string) :
  (logout tokensCodec userCodec true m localStorage).1.1 = loggedOut
  ∧ (logout tokensCodec userCodec true m localStorage).1.2
    = delete "auth_user"%string (delete "auth_tokens"%string localStorage)
  ∧ isAuthenticated now (logout tokensCodec userCodec true m localStorage).1.1 = false
  ∧ constructor tokensCodec userCodec true
      (logout tokensCodec userCodec true m localStorage).1.2
    = (loggedOut, (logout tokensCodec userCodec true m localStorage).1.2)
  ∧ ((logout tokensCodec userCodec true m localStorage).2 = true
     ↔ is_Some (tokens m)).
Proof.
  unfold logout. cbn [fst snd saveToStorage saveEntry loggedOut tokens user].
  split; [done|]. split; [done|]. split; [done|]. split.
  - unfold constructor, loadFromStorage, loadEntry.
    cbn [tokens user loggedOut].
    rewrite lookup_delete_ne by done. rewrite lookup_delete_eq.
    by rewrite lookup_delete_eq.
  - apply bool_decide_eq_true.
Qed.

(** X28. Asking for a valid token when the stored one has expired and the
    refresh fails returns no token and logs the user out: tokens and user
    are cleared in the manager and removed from the storage. *)
Theorem expired_token_refresh_failure tokensCodec userCodec now now' m t
    (response : Fetched RefreshData) (localStorage : gmap string string) :
  tokens m = Some t →
  expiresAt t ≤ now →
  (∀ data, response ≠ FetchedOk data) →
  getValidToken tokensCodec userCodec true now now' response m localStorage
  = (loggedOut,
     delete "auth_user"%string (delete "auth_tokens"%string localStorage),
     None).
Proof.
  intros Ht Hexp Hfail. unfold getValidToken, isTokenExpired, refreshTokens.
  rewrite Ht. rewrite bool_decide_eq_true_2 by done.
  destruct response as [data| |msg]; [by destruct (Hfail data)|done|done].
Qed.

Lemma expired_token_refresh_failure_witness :
  getValidToken sampleTokensCodec sampleUserCodec true 6000 6001 FetchedNotOk
    {| tokens := Some sampleTokens; user := Some sampleUser |}
    {["auth_tokens"%string := "{tokens}"%string;
      "auth_user"%string := "{user}"%string]}
  = (loggedOut,
     delete "auth_user"%string
       (delete "auth_tokens"%string
          {["auth_tokens"%string := "{tokens}"%string;
            "auth_user"%string := "{user}"%string]}),
     None).
Proof.
  apply (expired_token_refresh_failure sampleTokensCodec sampleUserCodec 6000 6001
           {| tokens := Some sampleTokens; user := Some sampleUser |} sampleTokens
           FetchedNotOk).
  - reflexivity.
  - cbn. lia.
  - intros data. discriminate.
Defined.

(** X29. While the manager is authenticated, [getValidToken] returns the
    access token it holds and changes nothing: it does not refresh,
    whatever the refresh request would have answered. *)
Theorem authenticated_token_needs_no_refresh tokensCodec userCodec now now' m
    (response : Fetched RefreshData) (localStorage : gmap string string) :
  isAuthenticated now m = true →
  ∃ t, tokens m = Some t
       ∧ now < expiresAt t
       ∧ getValidToken tokensCodec userCodec true now now' response m localStorage
         = (m, localStorage, Some (accessToken t)).
Proof.
  unfold isAuthenticated, getValidToken, isTokenExpired.
  intros Hauth. apply andb_true_iff in Hauth as [Hauth Hfresh].
  apply andb_true_iff in Hauth as [_ Htok].
  apply bool_decide_eq_true in Htok as [t Ht]. rewrite Ht in Hfresh |- *.
  apply negb_true_iff, bool_decide_eq_false in Hfresh.
  exists t. split; [done|]. split; [lia|].
  by rewrite bool_decide_eq_false_2 by done.
Qed.

Lemma authenticated_token_needs_no_refresh_witness :
  ∃ t, Some sampleTokens = Some t
       ∧ 4000 < expiresAt t
       ∧ getValidToken sampleTokensCodec sampleUserCodec true 4000 4001
           (FetchedThrows "offline")
           {| tokens := Some sampleTokens; user := Some sampleUser |} ∅
         = ({| tokens := Some sampleTokens; user := Some sampleUser |}, ∅,
            Some (accessToken t)).
Proof.
  apply (authenticated_token_needs_no_refresh sampleTokensCodec sampleUserCodec
           4000 4001 {| tokens := Some sampleTokens; user := Some sampleUser |}
           (FetchedThrows "offline") ∅).
  reflexivity.
Defined.

(** X30. A successful refresh keeps the user and replaces the tokens: the
    access token is the new one, the expiry is counted from the clock, and
    the refresh token is the new one when the response carries a non-empty
    one and the old one otherwise; the stored tokens entry is what
    [JSON.stringify] makes of the new tokens. *)
Theorem refresh_keeps_old_refresh_token tokensCodec userCodec now m old data
    (localStorage : gmap string string) :
  tokens m = Some old →
  ∃ t,
    refreshTokens tokensCodec userCodec true now (FetchedOk data) m localStorage
    = ({| tokens := Some t; user := user m |},
       saveToStorage tokensCodec userCodec true {| tokens := Some t; user := user m |}
         localStorage,
       true)
    ∧ accessToken t = refresh_access_token data
    ∧ expiresAt t = now + refresh_expires_in data * 1000
    ∧ refreshToken t
      = match refresh_refresh_token data with
        | Some r => if bool_decide (r = ""%string) then refreshToken old else r
        | None => refreshToken old
        end
    ∧ (saveToStorage tokensCodec userCodec true {| tokens := Some t; user := user m |}
         localStorage) !! "auth_tokens"%string
      = Some (stringify tokensCodec t).
Proof.
  intros Hold. unfold refreshTokens. rewrite Hold. eexists. split; [done|].
  cbn [accessToken expiresAt refreshToken]. split; [done|]. split; [done|]. split.
  - destruct (refresh_refresh_token data) as [r|]; [|done].
    cbn. unfold truthy_string. by case_bool_decide.
  - unfold saveToStorage, saveEntry. cbn [tokens user].
    destruct (user m); rewrite ?lookup_insert_ne, ?lookup_delete_ne by done;
      by rewrite lookup_insert_eq.
Qed.

Lemma refresh_keeps_old_refresh_token_witness :
  ∃ t,
    refreshTokens sampleTokensCodec sampleUserCodec true 7000
      (FetchedOk {| refresh_access_token := "a2"; refresh_refresh_token := None;
                    refresh_expires_in := 60 |})
      {| tokens := Some sampleTokens; user := Some sampleUser |} ∅
    = ({| tokens := Some t; user := Some sampleUser |},
       saveToStorage sampleTokensCodec sampleUserCodec true
         {| tokens := Some t; user := Some sampleUser |} ∅,
       true)
    ∧ accessToken t = "a2"%string
    ∧ expiresAt t = 7000 + 60 * 1000
    ∧ refreshToken t = "r1"%string
    ∧ (saveToStorage sampleTokensCodec sampleUserCodec true
         {| tokens := Some t; user := Some sampleUser |} ∅) !! "auth_tokens"%string
      = Some (stringify sampleTokensCodec t).
Proof.
  apply (refresh_keeps_old_refresh_token sampleTokensCodec sampleUserCodec 7000
           {| tokens := Some sampleTokens; user := Some sampleUser |} sampleTokens
           {| refresh_access_token := "a2"; refresh_refresh_token := None;
              refresh_expires_in := 60 |} ∅).
  reflexivity.
Defined.

End AuthSpec.
